(** * ibis SQL compiler core: query context, expression translator, rewrites

    A shallow embedding of [ibis/backends/base/sql/compiler/translator.py]:
    the [QueryContext] alias / memo / extraction bookkeeping, the
    [ExprTranslator.translate] dispatcher and the rewrite rules registered
    with [@rewrites], followed by the properties established about them. *)

From stdpp Require Import base decidable countable gmap strings list pretty sorting.

Set Default Proof Using "Type".

(** ** Attribute types *)

(** Python scalars that occur as literal values and node attributes. *)
Inductive Scalar : Type :=
  | SInt (z : Z)
  | SStr (s : string)
  | SBool (b : bool)
  | SNone.

(** Modelled from the spec: the data types of [ibis.expr.datatypes] are not
    part of this module.  The translator only asks whether a type is an
    [Integer], an [Interval] (and then for its [unit]), a [Struct] or a
    [Map]; parameterised types carry their canonical type string. *)
Inductive DataType : Type :=
  | dt_Integer (nbits : nat) (signed : bool)
  | dt_Boolean
  | dt_String
  | dt_Interval (unit : string)
  | dt_Struct (fields : string)
  | dt_Map (key_value : string)
  | dt_Other (repr : string).

(** The [closed] attribute of [ops.Bucket], validated upstream to be one of
    ['left'] and ['right']. *)
Inductive Closed : Type := closed_left | closed_right.

(** [type(op)]: the class of a node, the key of [_rewrites] and [_registry]. *)
Inductive NodeType : Type :=
  | T_ScalarParameter | T_Literal | T_TableColumn
  | T_Bucket | T_CategoryLabel
  | T_Any | T_NotAny | T_All | T_NotAll | T_Max | T_Min
  | T_Equals | T_Less | T_LessEqual | T_GreaterEqual | T_And
  | T_Cast | T_IntervalFromInteger
  | T_StringContains | T_StringFind
  | T_SearchedCase | T_SimpleCase
  | T_UnboundTable | T_SQLQueryResult | T_SQLStringView
  | T_Other (cls : string) (table : bool).

(** ** Nodes *)

(** Modelled from the spec: the operation classes of [ibis.expr.operations]
    are not part of this module.  A node is an immutable value with a
    discriminant, ordered arguments and an optional display name ([None] is
    the [unnamed] sentinel that [_needs_name] tests for); equality is
    structural, which is what the context's dictionaries and sets key on.
    The operation classes listed are the ones the translator module
    mentions; [Other] stands for any further class, remembering whether it
    derives from [ops.TableNode]. *)
Inductive Node : Type :=
  | mkNode (op : Op) (name : option string)
with Op : Type :=
  | ScalarParameter (dtype : DataType) (counter : nat)
  | Literal (value : Scalar) (dtype : option DataType)
  | TableColumn (table : Node) (column : string)
  | Bucket (arg : Node) (buckets : list Node) (closed : Closed)
      (close_extreme include_under include_over : bool)
  | CategoryLabel (arg : Node) (labels : list string) (nulls : option string)
  | Any (arg : Node)
  | NotAny (arg : Node)
  | All (arg : Node)
  | NotAll (arg : Node)
  | Max (arg : Node) (where_ : option Node)
  | Min (arg : Node) (where_ : option Node)
  | Equals (left right : Node)
  | Less (left right : Node)
  | LessEqual (left right : Node)
  | GreaterEqual (left right : Node)
  | And (left right : Node)
  | Cast (arg : Node) (to : DataType)
  | IntervalFromInteger (arg : Node) (unit : string)
  | StringContains (haystack needle : Node)
  | StringFind (arg substr : Node) (start end_ : option Node)
  | SearchedCase (cases results : list Node) (default : option Node)
  | SimpleCase (base : Node) (cases results : list Node) (default : option Node)
  | UnboundTable (table_name : string)
  | SQLQueryResult (query : string) (schema : string) (source : string)
  | SQLStringView (child : Node) (view_name : string) (query : string)
  | Other (cls : string) (table : bool) (args : list Node).

Definition node_op (n : Node) : Op := let 'mkNode o _ := n in o.
Definition node_name (n : Node) : option string := let 'mkNode _ nm := n in nm.

(** A freshly constructed operation has no display name. *)
Definition unnamed (o : Op) : Node := mkNode o None.

(** ** Decidable equality and countability of the small attribute types *)

Global Instance Scalar_eq_dec : EqDecision Scalar.
Proof. solve_decision. Defined.
Global Instance DataType_eq_dec : EqDecision DataType.
Proof. solve_decision. Defined.
Global Instance Closed_eq_dec : EqDecision Closed.
Proof. solve_decision. Defined.
Global Instance NodeType_eq_dec : EqDecision NodeType.
Proof. solve_decision. Defined.

Global Instance Scalar_countable : Countable Scalar.
Proof.
  refine (inj_countable'
    (fun v => match v with
              | SInt z => inl (inl z) | SStr s => inl (inr s)
              | SBool b => inr (inl b) | SNone => inr (inr ()) end)
    (fun e => match e with
              | inl (inl z) => SInt z | inl (inr s) => SStr s
              | inr (inl b) => SBool b | inr (inr _) => SNone end) _).
  by intros [].
Defined.

Global Instance DataType_countable : Countable DataType.
Proof.
  refine (inj_countable'
    (fun t => match t with
              | dt_Integer n s => inl (inl (n, s))
              | dt_Boolean => inl (inr true)
              | dt_String => inl (inr false)
              | dt_Interval u => inr (0, u)
              | dt_Struct f => inr (1, f)
              | dt_Map kv => inr (2, kv)
              | dt_Other r => inr (3, r) end)
    (fun e => match e with
              | inl (inl (n, s)) => dt_Integer n s
              | inl (inr true) => dt_Boolean
              | inl (inr false) => dt_String
              | inr (0, u) => dt_Interval u
              | inr (1, f) => dt_Struct f
              | inr (2, kv) => dt_Map kv
              | inr (_, r) => dt_Other r end) _).
  by intros [].
Defined.

Global Instance Closed_countable : Countable Closed.
Proof.
  refine (inj_countable'
    (fun c => match c with closed_left => true | closed_right => false end)
    (fun b : bool => if b then closed_left else closed_right) _).
  by intros [].
Defined.

(** ** Countability of nodes

    Nodes are encoded as generic trees whose leaves are the codes of the
    attributes; the decoder inverts the encoder, which gives both the
    decidable structural equality and the [Countable] instance that [gmap]
    and [gset] need for node-keyed dictionaries and sets. *)

Definition leaf `{Countable A} (a : A) : gen_tree positive := GenLeaf (encode a).
Definition unleaf `{Countable A} (t : gen_tree positive) : option A :=
  match t with GenLeaf p => decode p | GenNode _ _ => None end.

Global Arguments leaf : simpl never.
Global Arguments unleaf : simpl never.

Definition enc_opt {A} (f : A -> gen_tree positive) (o : option A) : gen_tree positive :=
  match o with Some a => GenNode 1 [f a] | None => GenNode 0 [] end.
Definition dec_opt {A} (f : gen_tree positive -> option A) (t : gen_tree positive)
    : option (option A) :=
  match t with
  | GenNode 1 [a] => Some <$> f a
  | GenNode 0 [] => Some None
  | _ => None
  end.

Fixpoint enc (n : Node) : gen_tree positive :=
  match n with
  | mkNode o nm => GenNode 0 [enc_op o; leaf nm]
  end
with enc_op (o : Op) : gen_tree positive :=
  match o with
  | ScalarParameter d c => GenNode 0 [leaf d; leaf c]
  | Literal v d => GenNode 1 [leaf v; leaf d]
  | TableColumn t c => GenNode 2 [enc t; leaf c]
  | Bucket a bs c ce iu io =>
      GenNode 3 [enc a; GenNode 0 (map enc bs); leaf c; leaf ce; leaf iu; leaf io]
  | CategoryLabel a ls nl => GenNode 4 [enc a; leaf ls; leaf nl]
  | Any a => GenNode 5 [enc a]
  | NotAny a => GenNode 6 [enc a]
  | All a => GenNode 7 [enc a]
  | NotAll a => GenNode 8 [enc a]
  | Max a w => GenNode 9 [enc a; enc_opt enc w]
  | Min a w => GenNode 10 [enc a; enc_opt enc w]
  | Equals l r => GenNode 11 [enc l; enc r]
  | Less l r => GenNode 12 [enc l; enc r]
  | LessEqual l r => GenNode 13 [enc l; enc r]
  | GreaterEqual l r => GenNode 14 [enc l; enc r]
  | And l r => GenNode 15 [enc l; enc r]
  | Cast a t => GenNode 16 [enc a; leaf t]
  | IntervalFromInteger a u => GenNode 17 [enc a; leaf u]
  | StringContains h n => GenNode 18 [enc h; enc n]
  | StringFind a s st en => GenNode 19 [enc a; enc s; enc_opt enc st; enc_opt enc en]
  | SearchedCase cs rs d =>
      GenNode 20 [GenNode 0 (map enc cs); GenNode 0 (map enc rs); enc_opt enc d]
  | SimpleCase b cs rs d =>
      GenNode 21 [enc b; GenNode 0 (map enc cs); GenNode 0 (map enc rs); enc_opt enc d]
  | UnboundTable nm => GenNode 22 [leaf nm]
  | SQLQueryResult q sch src => GenNode 23 [leaf q; leaf sch; leaf src]
  | SQLStringView c nm q => GenNode 24 [enc c; leaf nm; leaf q]
  | Other cls tb args => GenNode 25 [leaf cls; leaf tb; GenNode 0 (map enc args)]
  end.

Fixpoint dec (t : gen_tree positive) : option Node :=
  match t with
  | GenNode 0 [o; nm] => o' ← dec_op o; nm' ← unleaf nm; Some (mkNode o' nm')
  | _ => None
  end
with dec_op (t : gen_tree positive) : option Op :=
  match t with
  | GenNode tag ts =>
    match tag, ts with
    | 0, [d; c] => d' ← unleaf d; c' ← unleaf c; Some (ScalarParameter d' c')
    | 1, [v; d] => v' ← unleaf v; d' ← unleaf d; Some (Literal v' d')
    | 2, [t; c] => t' ← dec t; c' ← unleaf c; Some (TableColumn t' c')
    | 3, [a; GenNode 0 bs; c; ce; iu; io] =>
        a' ← dec a; bs' ← mapM dec bs; c' ← unleaf c; ce' ← unleaf ce;
        iu' ← unleaf iu; io' ← unleaf io; Some (Bucket a' bs' c' ce' iu' io')
    | 4, [a; ls; nl] =>
        a' ← dec a; ls' ← unleaf ls; nl' ← unleaf nl; Some (CategoryLabel a' ls' nl')
    | 5, [a] => Any <$> dec a
    | 6, [a] => NotAny <$> dec a
    | 7, [a] => All <$> dec a
    | 8, [a] => NotAll <$> dec a
    | 9, [a; w] => a' ← dec a; w' ← dec_opt dec w; Some (Max a' w')
    | 10, [a; w] => a' ← dec a; w' ← dec_opt dec w; Some (Min a' w')
    | 11, [l; r] => l' ← dec l; r' ← dec r; Some (Equals l' r')
    | 12, [l; r] => l' ← dec l; r' ← dec r; Some (Less l' r')
    | 13, [l; r] => l' ← dec l; r' ← dec r; Some (LessEqual l' r')
    | 14, [l; r] => l' ← dec l; r' ← dec r; Some (GreaterEqual l' r')
    | 15, [l; r] => l' ← dec l; r' ← dec r; Some (And l' r')
    | 16, [a; t] => a' ← dec a; t' ← unleaf t; Some (Cast a' t')
    | 17, [a; u] => a' ← dec a; u' ← unleaf u; Some (IntervalFromInteger a' u')
    | 18, [h; n] => h' ← dec h; n' ← dec n; Some (StringContains h' n')
    | 19, [a; s; st; en] =>
        a' ← dec a; s' ← dec s; st' ← dec_opt dec st; en' ← dec_opt dec en;
        Some (StringFind a' s' st' en')
    | 20, [GenNode 0 cs; GenNode 0 rs; d] =>
        cs' ← mapM dec cs; rs' ← mapM dec rs; d' ← dec_opt dec d;
        Some (SearchedCase cs' rs' d')
    | 21, [b; GenNode 0 cs; GenNode 0 rs; d] =>
        b' ← dec b; cs' ← mapM dec cs; rs' ← mapM dec rs; d' ← dec_opt dec d;
        Some (SimpleCase b' cs' rs' d')
    | 22, [nm] => UnboundTable <$> unleaf nm
    | 23, [q; sch; src] =>
        q' ← unleaf q; sch' ← unleaf sch; src' ← unleaf src;
        Some (SQLQueryResult q' sch' src')
    | 24, [c; nm; q] =>
        c' ← dec c; nm' ← unleaf nm; q' ← unleaf q; Some (SQLStringView c' nm' q')
    | 25, [cls; tb; GenNode 0 args] =>
        cls' ← unleaf cls; tb' ← unleaf tb; args' ← mapM dec args;
        Some (Other cls' tb' args')
    | _, _ => None
    end
  | GenLeaf _ => None
  end.

Lemma unleaf_leaf `{Countable A} (a : A) : unleaf (leaf a) = Some a.
Proof. unfold unleaf, leaf. apply decode_encode. Qed.

Lemma mapM_dec_enc (l : list Node) :
  Forall (fun n => dec (enc n) = Some n) l -> mapM dec (map enc l) = Some l.
Proof.
  induction 1 as [|n l Hn _ IH]; simpl; [done|].
  by rewrite Hn; simpl; rewrite IH.
Qed.

Local Ltac forall_dec_enc IH l :=
  let x := fresh "x" in let l' := fresh "l" in let IHl := fresh "IHl" in
  induction l as [|x l' IHl]; constructor; [apply IH | exact IHl].

Fixpoint dec_enc (n : Node) : dec (enc n) = Some n
with dec_op_enc_op (o : Op) : dec_op (enc_op o) = Some o.
Proof.
  - destruct n as [o nm]. cbn [enc dec]. rewrite (dec_op_enc_op o). cbn.
    by rewrite unleaf_leaf.
  - destruct o; cbn [enc_op dec_op];
      repeat match goal with
      | l : list Node |- _ =>
          lazymatch goal with
          | _ : Forall _ l |- _ => fail
          | _ => assert (Forall (fun n => dec (enc n) = Some n) l)
                   by forall_dec_enc dec_enc l
          end
      end;
      repeat match goal with w : option Node |- _ => destruct w end;
      cbn [enc_opt dec_opt];
      repeat first
        [ rewrite dec_enc | rewrite unleaf_leaf
        | rewrite mapM_dec_enc by assumption
        | progress cbn [mbind option_bind fmap option_fmap option_map] ];
      reflexivity.
Qed.

Lemma enc_inj (x y : Node) : enc x = enc y -> x = y.
Proof.
  intros H. apply (f_equal dec) in H. rewrite !dec_enc in H. congruence.
Qed.

Global Instance Node_eq_dec : EqDecision Node.
Proof.
  intros x y. destruct (decide (enc x = enc y)) as [H|H].
  - left. exact (enc_inj x y H).
  - right. intros ->. by apply H.
Defined.

Global Instance Node_countable : Countable Node := inj_countable enc dec dec_enc.

(** ** Exceptions and results *)

(** The exceptions that can leave this module: the [KeyError] of a failed
    dictionary subscript (it carries the key), the [IndexError] of a failed
    sequence subscript, [com.OperationNotDefinedError] with its message, the
    interpreter's [RecursionError], and whatever a collaborator (compiler,
    registry formatter, literal constructor) raises. *)
Inductive exn : Type :=
  | KeyError (key : Node)
  | IndexError
  | AttributeError
  | OperationNotDefinedError (msg : string)
  | RecursionError
  | ExternalError (msg : string).

Inductive result (A : Type) : Type :=
  | Ok (a : A)
  | Raise (e : exn).
Global Arguments Ok {A} a.
Global Arguments Raise {A} e.

(** Values supplied by the host program for scalar parameters; the
    translator hands them to the literal constructors unexamined. *)
Inductive PyValue : Type :=
  | PyScalar (v : Scalar)
  | PyTuple (items : list Scalar)
  | PyDict (items : list (string * Scalar)).

(** ** Query contexts *)

(** The query under construction at a scope, as [is_foreign_expr] reads it. *)
Record Query : Type := {
  table_set : Node;
  select_set : list Node;
}.

(** The attributes set by [QueryContext.__init__].  [parent] is a reference
    to another context object: contexts live in a store and are named by
    their position in it.  The compiler object is shared by a whole context
    tree ([subcontext] passes it on) and is a parameter of the operations
    that call it. *)
Record QueryContext : Type := {
  table_refs : gmap Node string;
  extracted_subexprs : gset Node;
  subquery_memo : gmap Node string;
  indent : nat;
  parent : option nat;
  always_alias : bool;
  query : option Query;
  params : gmap Node PyValue;
}.

Definition QueryContext_init (indent : nat) (parent : option nat)
    (params : option (gmap Node PyValue)) : QueryContext :=
  {| table_refs := ∅; extracted_subexprs := ∅; subquery_memo := ∅;
     indent := indent; parent := parent; always_alias := false;
     query := None; params := default ∅ params |}.

Global Instance QueryContext_inhabited : Inhabited QueryContext :=
  populate (QueryContext_init 2 None None).

(** The heap of context objects; a context is referred to by its index. *)
Abbreviation Store := (list QueryContext).

Definition with_table_refs (f : gmap Node string -> gmap Node string)
    (q : QueryContext) : QueryContext :=
  {| table_refs := f (table_refs q); extracted_subexprs := extracted_subexprs q;
     subquery_memo := subquery_memo q; indent := indent q; parent := parent q;
     always_alias := always_alias q; query := query q; params := params q |}.

Definition with_extracted_subexprs (f : gset Node -> gset Node)
    (q : QueryContext) : QueryContext :=
  {| table_refs := table_refs q; extracted_subexprs := f (extracted_subexprs q);
     subquery_memo := subquery_memo q; indent := indent q; parent := parent q;
     always_alias := always_alias q; query := query q; params := params q |}.

Definition with_subquery_memo (f : gmap Node string -> gmap Node string)
    (q : QueryContext) : QueryContext :=
  {| table_refs := table_refs q; extracted_subexprs := extracted_subexprs q;
     subquery_memo := f (subquery_memo q); indent := indent q; parent := parent q;
     always_alias := always_alias q; query := query q; params := params q |}.

Definition with_always_alias (b : bool) (q : QueryContext) : QueryContext :=
  {| table_refs := table_refs q; extracted_subexprs := extracted_subexprs q;
     subquery_memo := subquery_memo q; indent := indent q; parent := parent q;
     always_alias := b; query := query q; params := params q |}.

Definition with_query (qr : option Query) (q : QueryContext) : QueryContext :=
  {| table_refs := table_refs q; extracted_subexprs := extracted_subexprs q;
     subquery_memo := subquery_memo q; indent := indent q; parent := parent q;
     always_alias := always_alias q; query := qr; params := params q |}.

(** Allocation of a new context object. *)
Definition new_context (s : Store) (q : QueryContext) : Store * nat :=
  (s ++ [q], length s).

(** [subcontext]: a fresh context whose parent is [self], with the same
    indent and the same parameter mapping. *)
Definition subcontext (s : Store) (self : nat) : Store * nat :=
  new_context s
    (QueryContext_init (indent (s !!! self)) (Some self) (Some (params (s !!! self)))).

(** [top_context]: follow [parent] until a context without one.  The walk
    is bounded by [fuel]; a child is always allocated after its parent, so
    [self] steps are enough (see [top_context_root]). *)
Fixpoint top_context_from (fuel : nat) (s : Store) (self : nat) : nat :=
  match parent (s !!! self) with
  | None => self
  | Some p =>
      match fuel with
      | 0 => self
      | S fuel' => top_context_from fuel' s p
      end
  end.

Definition top_context (s : Store) (self : nat) : nat :=
  top_context_from self s self.

(** [_contexts]: [self], then (when [parents]) its ancestors, nearest first. *)
Fixpoint contexts_from (fuel : nat) (s : Store) (ctx : nat) : list nat :=
  ctx ::
  match parent (s !!! ctx) with
  | None => []
  | Some p =>
      match fuel with
      | 0 => []
      | S fuel' => contexts_from fuel' s p
      end
  end.

Definition _contexts (s : Store) (self : nat) (parents : bool) : list nat :=
  if parents then contexts_from self s self else [self].

Definition set_always_alias (s : Store) (self : nat) : Store :=
  alter (with_always_alias true) self s.

Definition set_ref (s : Store) (self : nat) (node : Node) (alias : string) : Store :=
  alter (with_table_refs (insert node alias)) self s.

(** The loop of [make_alias] over the ancestors: the alias to record, given
    the running count [i]. *)
Fixpoint make_alias_loop (s : Store) (node : Node) (i : nat)
    (ancestors : list nat) : string :=
  match ancestors with
  | [] => "t" +:+ pretty i
  | ctx :: rest =>
      match table_refs (s !!! ctx) !! node with
      | Some alias => alias
      | None => make_alias_loop s node (i + size (table_refs (s !!! ctx))) rest
      end
  end.

Definition make_alias (s : Store) (self : nat) (node : Node) : Store :=
  let i := size (table_refs (s !!! self)) in
  let alias := make_alias_loop s node i (drop 1 (_contexts s self true)) in
  set_ref s self node alias.

Definition need_aliases (s : Store) (self : nat) : bool :=
  always_alias (s !!! self) || bool_decide (1 < size (table_refs (s !!! self))).

Definition has_ref (s : Store) (self : nat) (node : Node) (parent_contexts : bool) : bool :=
  existsb (fun ctx => bool_decide (is_Some (table_refs (s !!! ctx) !! node)))
          (_contexts s self parent_contexts).

Definition is_extracted (s : Store) (self : nat) (node : Node) : bool :=
  bool_decide (node ∈ extracted_subexprs (s !!! top_context s self)).

(** [get_ref]: [dict.get] answers [None] for a missing key, so every path
    returns normally. *)
Definition get_ref (s : Store) (self : nat) (node : Node) : result (option string) :=
  if is_extracted s self node
  then Ok (table_refs (s !!! top_context s self) !! node)
  else Ok (table_refs (s !!! self) !! node).

Definition set_extracted (s : Store) (self : nat) (node : Node) : Store :=
  let s1 := alter (with_extracted_subexprs (fun e => {[ node ]} ∪ e)) self s in
  make_alias s1 self node.

Definition set_query (s : Store) (self : nat) (q : Query) : Store :=
  alter (with_query (Some q)) self s.

(** [collapse]: the queries joined by a blank line. *)
Definition collapse (queries : list string) : string :=
  let nl := Ascii.ascii_of_nat 10 in
  String.concat (String nl (String nl "")) queries.

(** ** The error monad of the rewrites and the state monad of translation *)

Global Instance result_ret : MRet result := fun _ a => Ok a.
Global Instance result_bind : MBind result := fun _ _ f m =>
  match m with Ok a => f a | Raise e => Raise e end.

(** A computation that reads and updates the context store and either
    returns or raises; the store survives a raise, as mutations do. *)
Definition M (A : Type) : Type := Store -> result A * Store.

Definition M_ret {A} (a : A) : M A := fun s => (Ok a, s).
Definition M_raise {A} (e : exn) : M A := fun s => (Raise e, s).
Definition M_bind {A B} (m : M A) (k : A -> M B) : M B := fun s =>
  match m s with
  | (Ok a, s') => k a s'
  | (Raise e, s') => (Raise e, s')
  end.
Definition M_lift {A} (r : result A) : M A := fun s => (r, s).

(** ** Memoised subquery compilation *)

Section compiler.
(** [self.compiler.to_sql(expr, ctx)]: the statement compiler, a
    collaborator that may use and update any context it can reach. *)
Variable to_sql : Node -> nat -> M string.

Definition _to_sql (expr : Node) (ctx : nat) : M string := to_sql expr ctx.

Definition _compile_subquery (self : nat) (op : Node) : M string := fun s =>
  let '(s1, sub_ctx) := subcontext s self in
  _to_sql op sub_ctx s1.

(** [node.query] when [node] is an [ops.SQLQueryResult] or an
    [ops.SQLStringView]. *)
Definition stored_query (node : Node) : option string :=
  match node_op node with
  | SQLQueryResult q _ _ => Some q
  | SQLStringView _ _ q => Some q
  | _ => None
  end.

(** [get_compiled_expr].  Besides the outcome and the store, the model
    reports the nodes on which this call ran [_compile_subquery]. *)
Definition get_compiled_expr (self : nat) (node : Node) (s : Store)
    : result string * Store * list Node :=
  match subquery_memo (s !!! top_context s self) !! node with
  | Some text => (Ok text, s, [])
  | None =>
      let '(r, s1, compiled) :=
        match stored_query node with
        | Some q => (Ok q, s, [])
        | None => let '(r, s1) := _compile_subquery self node s in (r, s1, [node])
        end in
      match r with
      | Ok text =>
          (Ok text,
           alter (with_subquery_memo (insert node text)) (top_context s1 self) s1,
           compiled)
      | Raise e => (Raise e, s1, compiled)
      end
  end.
End compiler.

(** [is_foreign_expr], over [ibis.expr.analysis.shares_all_roots]. *)
Definition is_foreign_expr (shares_all_roots : Node -> list Node -> bool)
    (s : Store) (self : nat) (op : Node) : result bool :=
  if has_ref s self op true then Ok false
  else match query (s !!! self) with
       | Some q => Ok (negb (shares_all_roots op (table_set q :: select_set q)))
       | None => Raise AttributeError
       end.

(** ** Expression construction used by the rewrites *)

(** [type(op)]. *)
Definition type_of (n : Node) : NodeType :=
  match node_op n with
  | ScalarParameter _ _ => T_ScalarParameter
  | Literal _ _ => T_Literal
  | TableColumn _ _ => T_TableColumn
  | Bucket _ _ _ _ _ _ => T_Bucket
  | CategoryLabel _ _ _ => T_CategoryLabel
  | Any _ => T_Any
  | NotAny _ => T_NotAny
  | All _ => T_All
  | NotAll _ => T_NotAll
  | Max _ _ => T_Max
  | Min _ _ => T_Min
  | Equals _ _ => T_Equals
  | Less _ _ => T_Less
  | LessEqual _ _ => T_LessEqual
  | GreaterEqual _ _ => T_GreaterEqual
  | And _ _ => T_And
  | Cast _ _ => T_Cast
  | IntervalFromInteger _ _ => T_IntervalFromInteger
  | StringContains _ _ => T_StringContains
  | StringFind _ _ _ _ => T_StringFind
  | SearchedCase _ _ _ => T_SearchedCase
  | SimpleCase _ _ _ _ => T_SimpleCase
  | UnboundTable _ => T_UnboundTable
  | SQLQueryResult _ _ _ => T_SQLQueryResult
  | SQLStringView _ _ _ => T_SQLStringView
  | Other cls tb _ => T_Other cls tb
  end.

(** [isinstance(op, ops.ScalarParameter)] and [isinstance(op, ops.TableNode)]. *)
Definition is_ScalarParameter (n : Node) : bool :=
  bool_decide (type_of n = T_ScalarParameter).

Definition is_TableNode (n : Node) : bool :=
  match type_of n with
  | T_UnboundTable | T_SQLQueryResult | T_SQLStringView => true
  | T_Other _ tb => tb
  | _ => false
  end.

(** Modelled from the spec: an argument is a scalar literal or a node; a
    Python value used where a node is expected becomes a literal whose type
    the (absent) literal constructor infers. *)
Definition py_int (z : Z) : Node := unnamed (Literal (SInt z) None).
Definition py_str (s : string) : Node := unnamed (Literal (SStr s) None).

(** Modelled from the spec: the expression API ([has_name], [get_name],
    [name]) is not part of this module; a node has an optional display
    name, and naming an expression gives the same operation that name. *)
Definition has_name (expr : Node) : bool := bool_decide (is_Some (node_name expr)).
Definition get_name (expr : Node) : string := default "" (node_name expr).
Definition with_name (expr : Node) (nm : string) : Node :=
  mkNode (node_op expr) (Some nm).

(** Modelled from the spec: the CASE builders ([ibis.case()], [expr.case()],
    [when], [else_], [end]) are not part of this module.  A builder
    collects branches in order; [end] yields a searched CASE, or a simple
    CASE over [base] when there is one, with no default when no else-branch
    was given (an unmatched CASE is null). *)
Record CaseBuilder : Type := {
  cb_base : option Node;
  cb_cases : list Node;
  cb_results : list Node;
  cb_default : option Node;
}.

Definition ibis_case : CaseBuilder :=
  {| cb_base := None; cb_cases := []; cb_results := []; cb_default := None |}.
Definition expr_case (base : Node) : CaseBuilder :=
  {| cb_base := Some base; cb_cases := []; cb_results := []; cb_default := None |}.
Definition when (stmt : CaseBuilder) (case_expr result_expr : Node) : CaseBuilder :=
  {| cb_base := cb_base stmt; cb_cases := cb_cases stmt ++ [case_expr];
     cb_results := cb_results stmt ++ [result_expr]; cb_default := cb_default stmt |}.
Definition else_ (stmt : CaseBuilder) (result_expr : Node) : CaseBuilder :=
  {| cb_base := cb_base stmt; cb_cases := cb_cases stmt;
     cb_results := cb_results stmt; cb_default := Some result_expr |}.
Definition case_end (stmt : CaseBuilder) : Node :=
  match cb_base stmt with
  | None => unnamed (SearchedCase (cb_cases stmt) (cb_results stmt) (cb_default stmt))
  | Some b => unnamed (SimpleCase b (cb_cases stmt) (cb_results stmt) (cb_default stmt))
  end.

(** [enumerate]. *)
Definition enumerate {A} (l : list A) : list (nat * A) := imap (fun j x => (j, x)) l.

(** ** Rewrite rules *)

(** A comparison class, applied to its two operands. *)
Abbreviation Cmp := (Node -> Node -> Op).

(** The body of the [for j, (lower, upper) in enumerate(zip(...))] loop of
    [_bucket], on the running [(stmt, bucket_id)]. *)
Definition bucket_step (arg : Node) (closed : Closed) (close_extreme : bool)
    (user_num_buckets : Z) (l_cmp r_cmp : Cmp)
    (acc : CaseBuilder * Z) (item : nat * (Node * Node)) : CaseBuilder * Z :=
  let '(stmt, bucket_id) := acc in
  let '(j, (lower, upper)) := item in
  let stmt :=
    if close_extreme &&
       ((bool_decide (closed = closed_right) && bool_decide (j = 0)) ||
        (bool_decide (closed = closed_left) &&
         bool_decide (Z.of_nat j = user_num_buckets - 1)%Z))
    then when stmt
           (unnamed (And (unnamed (LessEqual lower arg)) (unnamed (LessEqual arg upper))))
           (py_int bucket_id)
    else when stmt
           (unnamed (And (unnamed (l_cmp lower arg)) (unnamed (r_cmp arg upper))))
           (py_int bucket_id) in
  (stmt, (bucket_id + 1)%Z).

(** [@rewrites(ops.Bucket)]. *)
Definition _bucket (op : Node) : result Node :=
  match node_op op with
  | Bucket arg buckets closed close_extreme include_under include_over =>
      let expr := arg in
      let stmt := ibis_case in
      let '(l_cmp, r_cmp) :=
        match closed with
        | closed_left => (LessEqual, Less)
        | closed_right => (Less, LessEqual)
        end in
      let user_num_buckets := (Z.of_nat (length buckets) - 1)%Z in
      let bucket_id := 0%Z in
      '(stmt, bucket_id) ←
        (if include_under then
           let cmp : Cmp :=
             if bool_decide (user_num_buckets > 0)%Z
             then (if close_extreme then Less else r_cmp)
             else (if bool_decide (closed = closed_right) then LessEqual else Less) in
           match buckets !! 0 with
           | Some first => Ok (when stmt (unnamed (cmp arg first)) (py_int bucket_id),
                               (bucket_id + 1)%Z)
           | None => Raise IndexError
           end
         else Ok (stmt, bucket_id));
      let '(stmt, bucket_id) :=
        foldl (bucket_step arg closed close_extreme user_num_buckets l_cmp r_cmp)
              (stmt, bucket_id) (enumerate (zip buckets (drop 1 buckets))) in
      '(stmt, bucket_id) ←
        (if include_over then
           let cmp : Cmp :=
             if bool_decide (user_num_buckets > 0)%Z
             then (if close_extreme then Less else l_cmp)
             else (if bool_decide (closed = closed_right) then Less else LessEqual) in
           match last buckets with
           | Some final => Ok (when stmt (unnamed (cmp final arg)) (py_int bucket_id),
                               (bucket_id + 1)%Z)
           | None => Raise IndexError
           end
         else Ok (stmt, bucket_id));
      let result := case_end stmt in
      let result := if has_name expr then with_name result (get_name expr) else result in
      Ok result
  | _ => Raise AttributeError
  end.

(** [@rewrites(ops.CategoryLabel)]. *)
Definition _category_label (op : Node) : result Node :=
  match node_op op with
  | CategoryLabel arg labels nulls =>
      let expr := op in
      let stmt := expr_case arg in
      let stmt :=
        foldl (fun stmt '(i, label) => when stmt (py_int (Z.of_nat i)) (py_str label))
              stmt (enumerate labels) in
      let stmt := match nulls with Some n => else_ stmt (py_str n) | None => stmt end in
      let result := case_end stmt in
      let result := if has_name expr then with_name result (get_name expr) else result in
      Ok result
  | _ => Raise AttributeError
  end.

Section translator.
(** [op.output_dtype], computed by the operation classes. *)
Variable output_dtype : Node -> DataType.

(** [@rewrites(ops.Any)], [ops.NotAny], [ops.All], [ops.NotAll]. *)
Definition _any_expand (op : Node) : result Node :=
  match node_op op with
  | Any arg => Ok (unnamed (Max arg None))
  | _ => Raise AttributeError
  end.

Definition _notany_expand (op : Node) : result Node :=
  match node_op op with
  | NotAny arg =>
      Ok (unnamed (Equals (unnamed (Max arg None))
                          (unnamed (Literal (SInt 0) (Some (output_dtype arg))))))
  | _ => Raise AttributeError
  end.

Definition _all_expand (op : Node) : result Node :=
  match node_op op with
  | All arg => Ok (unnamed (Min arg None))
  | _ => Raise AttributeError
  end.

Definition _notall_expand (op : Node) : result Node :=
  match node_op op with
  | NotAll arg =>
      Ok (unnamed (Equals (unnamed (Min arg None))
                          (unnamed (Literal (SInt 0) (Some (output_dtype arg))))))
  | _ => Raise AttributeError
  end.

(** [@rewrites(ops.Cast)]: an integer cast to an interval becomes an
    interval construction of the target's unit ([to_interval], which is not
    part of this module, builds that operation). *)
Definition _rewrite_cast (op : Node) : result Node :=
  match node_op op with
  | Cast arg to =>
      match to, output_dtype arg with
      | dt_Interval unit, dt_Integer _ _ => Ok (unnamed (IntervalFromInteger arg unit))
      | _, _ => Ok op
      end
  | _ => Raise AttributeError
  end.

(** [@rewrites(ops.StringContains)]. *)
Definition _rewrite_string_contains (op : Node) : result Node :=
  match node_op op with
  | StringContains haystack needle =>
      Ok (unnamed (GreaterEqual (unnamed (StringFind haystack needle None None))
                                (py_int 0)))
  | _ => Raise AttributeError
  end.

(** [ExprTranslator._rewrites], as filled by the decorators of the module. *)
Definition _rewrites (t : NodeType) : option (Node -> result Node) :=
  match t with
  | T_Bucket => Some _bucket
  | T_CategoryLabel => Some _category_label
  | T_Any => Some _any_expand
  | T_NotAny => Some _notany_expand
  | T_All => Some _all_expand
  | T_NotAll => Some _notall_expand
  | T_Cast => Some _rewrite_cast
  | T_StringContains => Some _rewrite_string_contains
  | _ => None
  end.

(** The rewrite step of [translate]: [_rewrites[type(op)](op)] when the
    class has a rewrite, the node itself otherwise. *)
Definition rewrite_step (op : Node) : result Node :=
  match _rewrites (type_of op) with
  | Some rewrite => rewrite op
  | None => Ok op
  end.

(** A registry formatter receives the translator, that is its [translate]
    method and its context, and the node. *)
Definition Formatter : Type := (Node -> M string) -> nat -> Node -> M string.

(** [ExprTranslator._registry], owned by the backend. *)
Variable _registry : NodeType -> option Formatter.

(** [str(type(op))], as interpolated into the error message. *)
Variable type_repr : NodeType -> string.

(** [ibis.literal], [ibis.struct] and [ibis.map] with [type=dtype]. *)
Variable ibis_literal ibis_struct ibis_map : PyValue -> DataType -> result Node.

(** [quote_identifier(name, force=force)]. *)
Variable quote_identifier : string -> bool -> string.

Definition _trans_param (translate : Node -> M string) (context : nat) (op : Node)
    : M string := fun s =>
  match params (s !!! context) !! op with
  | None => (Raise (KeyError op), s)
  | Some raw_value =>
      let dtype := output_dtype op in
      let literal :=
        match dtype with
        | dt_Struct _ => ibis_struct raw_value dtype
        | dt_Map _ => ibis_map raw_value dtype
        | _ => ibis_literal raw_value dtype
        end in
      match literal with
      | Ok l => translate l s
      | Raise e => (Raise e, s)
      end
  end.

(** [translate].  [depth] is the interpreter's remaining recursion depth:
    the calls that [translate] makes to itself, directly or through a
    formatter, run one level down and raise [RecursionError] at the
    bottom. *)
Fixpoint translate (depth : nat) (context : nat) (op : Node) : M string :=
  let self_translate : Node -> M string :=
    match depth with
    | 0 => fun _ => M_raise RecursionError
    | S depth' => translate depth' context
    end in
  M_bind (M_lift (rewrite_step op))
    (fun op =>
       if is_ScalarParameter op then _trans_param self_translate context op
       else if is_TableNode op then M_ret "*"
       else match _registry (type_of op) with
            | Some formatter => formatter self_translate context op
            | None =>
                M_raise (OperationNotDefinedError
                           ("No translation rule for " +:+ type_repr (type_of op)))
            end).

(** The attributes of an [ExprTranslator]. *)
Record ExprTranslator : Type := {
  tr_node : Node;
  tr_context : nat;
  tr_named : bool;
  tr_permit_subquery : bool;
}.

(** Whether the operation class defines a [name] attribute.  The classes
    are not part of this module: the value operations carry one (the
    display name, or the [unnamed] sentinel), a table node such as a
    selection carries none. *)
Variable has_name_attribute : NodeType -> bool.

(** [op.name]: the attribute read, which raises [AttributeError] on a node
    whose class defines no such attribute. *)
Definition op_name (op : Node) : result (option string) :=
  if has_name_attribute (type_of op) then Ok (node_name op)
  else Raise AttributeError.

Definition _needs_name (self : ExprTranslator) (op : Node) : result bool :=
  if negb (tr_named self) then Ok false
  else if bool_decide (type_of op = T_TableColumn) then Ok false
  else match op_name op with
       | Ok nm => Ok (bool_decide (is_Some nm))
       | Raise e => Raise e
       end.

Definition name (translated nm : string) (force : bool) : string :=
  translated +:+ " AS " +:+ quote_identifier nm force.

Definition get_result (depth : nat) (self : ExprTranslator) : M string :=
  M_bind (translate depth (tr_context self) (tr_node self))
    (fun translated =>
       M_bind (M_lift (_needs_name self (tr_node self)))
         (fun needs_name =>
            if needs_name
            then M_bind (M_lift (op_name (tr_node self)))
                   (fun nm => M_ret (name translated (default "" nm) true))
            else M_ret translated)).
End translator.

(** ** What the emitted conditions and CASE expressions denote *)

(** The values of the SQL reading of an expression. *)
Inductive Val : Type :=
  | VInt (z : Z)
  | VStr (s : string)
  | VBool (b : bool)
  | VNull.

Definition val_compare (f : Z -> Z -> bool) (a b : option Val) : option Val :=
  match a, b with
  | Some (VInt x), Some (VInt y) => Some (VBool (f x y))
  | Some VNull, Some (VInt _) | Some (VInt _), Some VNull
  | Some VNull, Some VNull => Some VNull
  | _, _ => None
  end.

Definition val_and (a b : option Val) : option Val :=
  match a, b with
  | Some (VBool x), Some (VBool y) => Some (VBool (x && y))
  | Some (VBool false), Some VNull | Some VNull, Some (VBool false) =>
      Some (VBool false)
  | Some (VBool true), Some VNull | Some VNull, Some (VBool true)
  | Some VNull, Some VNull => Some VNull
  | _, _ => None
  end.

Definition val_of_scalar (v : Scalar) : Val :=
  match v with
  | SInt z => VInt z
  | SStr s => VStr s
  | SBool b => VBool b
  | SNone => VNull
  end.

Global Instance Val_eq_dec : EqDecision Val.
Proof. solve_decision. Defined.

(** The branch selection of a searched CASE, on the values of its
    conditions and results. *)
Fixpoint searched_select (conds results : list (option Val)) (dflt : option Val)
    : option Val :=
  match conds, results with
  | c :: conds', r :: results' =>
      match c with
      | Some (VBool true) => r
      | Some (VBool false) | Some VNull => searched_select conds' results' dflt
      | _ => None
      end
  | _, _ => dflt
  end.

(** The branch selection of a simple CASE over the value [vb]. *)
Fixpoint simple_select (vb : Val) (cases results : list (option Val))
    (dflt : option Val) : option Val :=
  match cases, results with
  | c :: cases', r :: results' =>
      match c with
      | None => None
      | Some vc =>
          if bool_decide (vb <> VNull /\ vb = vc) then r
          else simple_select vb cases' results' dflt
      end
  | _, _ => dflt
  end.

(** Modelled from the spec: the meaning of the emitted expressions belongs
    to the SQL engine, not to this module.  This is the SQL reading of the
    nodes that the bucket and category-label rewrites build: comparisons and
    conjunction over integers with SQL's treatment of null, and CASE taking
    the result of the first branch whose condition is true, the default
    when none is, and null when there is no default.  [env] gives the value
    of the nodes that stand for data (the bucketed column).  [None] means
    the node is outside this fragment. *)
Fixpoint eval (env : Node -> option Val) (n : Node) {struct n} : option Val :=
  match env n with
  | Some v => Some v
  | None =>
    match n with
    | mkNode (Literal v _) _ => Some (val_of_scalar v)
    | mkNode (Less l r) _ => val_compare Z.ltb (eval env l) (eval env r)
    | mkNode (LessEqual l r) _ => val_compare Z.leb (eval env l) (eval env r)
    | mkNode (GreaterEqual l r) _ => val_compare Z.geb (eval env l) (eval env r)
    | mkNode (And l r) _ => val_and (eval env l) (eval env r)
    | mkNode (SearchedCase cs rs d) _ =>
        searched_select (map (eval env) cs) (map (eval env) rs)
          match d with
          | Some e => eval env e
          | None => Some VNull
          end
    | mkNode (SimpleCase b cs rs d) _ =>
        match eval env b with
        | None => None
        | Some vb =>
            simple_select vb (map (eval env) cs) (map (eval env) rs)
              match d with
              | Some e => eval env e
              | None => Some VNull
              end
        end
    | _ => None
    end
  end.

(** The environment in which the node [x] has the integer value [v]. *)
Definition bind_int (x : Node) (v : Z) : Node -> option Val :=
  fun n => if decide (n = x) then Some (VInt v) else None.

(** ** Context trees

    Contexts are created by [QueryContext(...)] and [subcontext()] only, so
    a parent is always an older object than its child. *)
Definition wf (s : Store) : Prop :=
  forall c p, parent (s !!! c) = Some p -> p < c.

(** The alias strings recorded in one context, and those visible from a
    context: its own and those of its ancestors. *)
Definition aliases (q : QueryContext) : list string :=
  (map_to_list (table_refs q)).*2.

Definition visible_aliases (s : Store) (c : nat) : list string :=
  _contexts s c true ≫= (fun a => aliases (s !!! a)).

(** The number of aliases recorded along the chain of a context. *)
Definition visible_count (s : Store) (c : nat) : nat :=
  sum_list ((fun a => size (table_refs (s !!! a))) <$> _contexts s c true).

(** A scripted use of a context tree: calls of [subcontext] and
    [make_alias], run in order from the root context of a compilation. *)
Inductive Call : Type :=
  | CallSubcontext (self : nat)
  | CallMakeAlias (self : nat) (node : Node).

Definition run_call (s : Store) (c : Call) : Store :=
  match c with
  | CallSubcontext self => (subcontext s self).1
  | CallMakeAlias self node => make_alias s self node
  end.

Definition run (s : Store) (calls : list Call) : Store := foldl run_call s calls.

Definition aliased_nodes (calls : list Call) : list Node :=
  omap (fun c => match c with CallMakeAlias _ n => Some n | CallSubcontext _ => None end)
       calls.

(** Every call is made on a context that exists when it is made. *)
Fixpoint calls_valid (s : Store) (calls : list Call) : Prop :=
  match calls with
  | [] => True
  | c :: rest =>
      match c with
      | CallSubcontext self | CallMakeAlias self _ => self < length s
      end /\ calls_valid (run_call s c) rest
  end.

(** [make_alias] calls made ancestors first: when a context is given an
    alias, no context below it holds one yet. *)
Definition no_alias_below (s : Store) (self : nat) : Prop :=
  forall d, d <> self -> self ∈ _contexts s d true -> table_refs (s !!! d) = ∅.

Fixpoint calls_ancestors_first (s : Store) (calls : list Call) : Prop :=
  match calls with
  | [] => True
  | c :: rest =>
      match c with
      | CallSubcontext _ => True
      | CallMakeAlias self _ => no_alias_below s self
      end /\ calls_ancestors_first (run_call s c) rest
  end.

(** The store of a compilation that has just created its root context. *)
Definition root_store (indent : nat) (params : option (gmap Node PyValue)) : Store :=
  [QueryContext_init indent None params].

(** The aliases [t0], [t1], ..., [t(N-1)]. *)
Definition alias_names (N : nat) : list string :=
  (fun i => "t" +:+ pretty i) <$> seq 0 N.

(** Every context sees exactly the first aliases, one apiece. *)
Definition numbered (s : Store) : Prop :=
  forall c, visible_aliases s c ≡ₚ alias_names (visible_count s c).



(** ** Example data *)

Definition table_a : Node := unnamed (UnboundTable "a").
Definition table_b : Node := unnamed (UnboundTable "b").

(** A root context and one subcontext of it. *)
Definition root_and_child : Store := (subcontext (root_store 2 None) 0).1.

(** A root context whose extracted set holds [table_a] while its alias
    table is empty. *)
Definition extracted_unaliased : Store :=
  [with_extracted_subexprs (fun e => {[ table_a ]} ∪ e) (QueryContext_init 2 None None)].

(** A translator set-up: a registry that knows literals only, and stand-ins
    for the collaborators. *)
Definition literal_registry : NodeType -> option Formatter :=
  fun t => match t with
           | T_Literal => Some (fun _ _ _ => M_ret "0")
           | _ => None
           end.

Definition example_output_dtype : Node -> DataType :=
  fun n => match node_op n with
           | ScalarParameter d _ => d
           | _ => dt_Integer 64 true
           end.

Definition example_type_repr : NodeType -> string :=
  fun t => match t with
           | T_Other cls _ => "<class '" +:+ cls +:+ "'>"
           | _ => "<class 'ibis.expr.operations.core.Node'>"
           end.

Definition example_literal : PyValue -> DataType -> result Node :=
  fun v d => match v with
             | PyScalar x => Ok (unnamed (Literal x (Some d)))
             | _ => Raise (ExternalError "IbisTypeError")
             end.

Definition param_0 : Node :=
  mkNode (ScalarParameter (dt_Integer 64 true) 0) (Some "param_0").

Definition unregistered_op : Node := unnamed (Other "Levenshtein" false [table_a]).

(** A column [v] of [table_a], and the bucket edges 0, 10, 20. *)
Definition column_v : Node := mkNode (TableColumn table_a "v") (Some "v").
Definition edges_0_10_20 : list Node := [py_int 0; py_int 10; py_int 20].

(** The comparator of the under-range branch of the bucket rewrite, by the
    closed side, [close_extreme] and the number of intervals between the
    edges. *)
Definition under_comparator (closed : Closed) (close_extreme : bool)
    (intervals : nat) : Cmp :=
  match intervals with
  | 0 => match closed with closed_right => LessEqual | closed_left => Less end
  | S _ =>
      if close_extreme then Less
      else match closed with closed_left => Less | closed_right => LessEqual end
  end.

(** ** Properties of the context store *)

Section store_facts.
Implicit Types (s : Store) (c d p : nat) (q : QueryContext) (n : Node).

Lemma lookup_total_out_of_range s c :
  length s <= c -> s !!! c = QueryContext_init 2 None None.
Proof.
  intros Hc. rewrite list_lookup_total_alt.
  by rewrite (lookup_ge_None_2 s c Hc).
Qed.

Lemma parent_alter f s c d :
  (forall q, parent (f q) = parent q) ->
  parent (alter f c s !!! d) = parent (s !!! d).
Proof.
  intros Hf. destruct (decide (c = d)) as [->|Hne].
  - destruct (decide (d < length s)) as [Hlt|Hge].
    + by rewrite list_lookup_total_alter_eq.
    + rewrite !lookup_total_out_of_range; [done|lia|rewrite length_alter; lia].
  - by rewrite list_lookup_total_alter_ne.
Qed.

Lemma contexts_from_ext fuel s s' c :
  (forall d, parent (s' !!! d) = parent (s !!! d)) ->
  contexts_from fuel s' c = contexts_from fuel s c.
Proof.
  intros Hp. revert c. induction fuel as [|fuel IH]; intros c; simpl; rewrite Hp.
  - done.
  - destruct (parent (s !!! c)); [by rewrite IH|done].
Qed.

Lemma top_context_from_ext fuel s s' c :
  (forall d, parent (s' !!! d) = parent (s !!! d)) ->
  top_context_from fuel s' c = top_context_from fuel s c.
Proof.
  intros Hp. revert c. induction fuel as [|fuel IH]; intros c; simpl; rewrite Hp.
  - done.
  - destruct (parent (s !!! c)); [by rewrite IH|done].
Qed.

(** More fuel than the context's own index changes nothing. *)
Lemma contexts_from_fuel s fuel c :
  wf s -> c <= fuel -> contexts_from fuel s c = contexts_from c s c.
Proof.
  intros Hwf. revert fuel. induction (lt_wf c) as [c _ IH]. intros fuel Hle.
  destruct fuel as [|fuel], c as [|c]; simpl; try lia; try done.
  - destruct (parent (s !!! 0)) as [p|] eqn:Hp; [|done].
    apply Hwf in Hp. lia.
  - destruct (parent (s !!! S c)) as [p|] eqn:Hp; [|done].
    apply Hwf in Hp.
    rewrite (IH p Hp fuel) by lia. by rewrite (IH p Hp c) by lia.
Qed.

Lemma top_context_from_fuel s fuel c :
  wf s -> c <= fuel -> top_context_from fuel s c = top_context_from c s c.
Proof.
  intros Hwf. revert fuel. induction (lt_wf c) as [c _ IH]. intros fuel Hle.
  destruct fuel as [|fuel], c as [|c]; simpl; try lia; try done.
  - destruct (parent (s !!! 0)) as [p|] eqn:Hp; [|done].
    apply Hwf in Hp. lia.
  - destruct (parent (s !!! S c)) as [p|] eqn:Hp; [|done].
    apply Hwf in Hp.
    rewrite (IH p Hp fuel) by lia. by rewrite (IH p Hp c) by lia.
Qed.

(** The recursive reading of [_contexts] and of [top_context]. *)
Lemma contexts_unfold s c :
  wf s ->
  _contexts s c true =
    c :: match parent (s !!! c) with
         | Some p => _contexts s p true
         | None => []
         end.
Proof.
  intros Hwf. unfold _contexts. destruct c as [|c]; simpl.
  - destruct (parent (s !!! 0)) as [p|] eqn:Hp; [|done].
    apply Hwf in Hp. lia.
  - destruct (parent (s !!! S c)) as [p|] eqn:Hp; [|done].
    apply Hwf in Hp. by rewrite contexts_from_fuel by (done || lia).
Qed.

Lemma top_context_unfold s c :
  wf s ->
  top_context s c =
    match parent (s !!! c) with
    | Some p => top_context s p
    | None => c
    end.
Proof.
  intros Hwf. unfold top_context. destruct c as [|c]; simpl.
  - destruct (parent (s !!! 0)) as [p|] eqn:Hp; [|done].
    apply Hwf in Hp. lia.
  - destruct (parent (s !!! S c)) as [p|] eqn:Hp; [|done].
    apply Hwf in Hp. by rewrite top_context_from_fuel by (done || lia).
Qed.

(** The bounded walk does reach a context without parent, which is an
    existing context at or above the start. *)
Lemma top_context_root s c :
  wf s -> parent (s !!! top_context s c) = None /\ top_context s c <= c.
Proof.
  intros Hwf. induction (lt_wf c) as [c _ IH].
  rewrite top_context_unfold by done.
  destruct (parent (s !!! c)) as [p|] eqn:Hp; [|by split].
  apply Hwf in Hp. destruct (IH p Hp). split; [done|lia].
Qed.

Lemma top_context_lt_length s c :
  wf s -> c < length s -> top_context s c < length s.
Proof. intros Hwf Hc. destruct (top_context_root s c Hwf). lia. Qed.

Lemma contexts_le s c d : wf s -> d ∈ _contexts s c true -> d <= c.
Proof.
  intros Hwf. induction (lt_wf c) as [c _ IH].
  rewrite contexts_unfold by done. intros [->|Hd]%elem_of_cons; [done|].
  destruct (parent (s !!! c)) as [p|] eqn:Hp; [|by apply elem_of_nil in Hd].
  apply Hwf in Hp. specialize (IH p Hp Hd). lia.
Qed.

Lemma top_context_in_contexts s c : wf s -> top_context s c ∈ _contexts s c true.
Proof.
  intros Hwf. induction (lt_wf c) as [c _ IH].
  rewrite top_context_unfold, contexts_unfold by done.
  destruct (parent (s !!! c)) as [p|] eqn:Hp; [|by left].
  right. apply IH. by apply Hwf.
Qed.

(** Well-formedness is kept by every operation of the class. *)
Lemma wf_alter f s c :
  (forall q, parent (f q) = parent q) -> wf s -> wf (alter f c s).
Proof. intros Hf Hwf d p. rewrite parent_alter by done. apply Hwf. Qed.

Lemma wf_root_store i ps : wf (root_store i ps).
Proof.
  intros c p. destruct c as [|c]; [done|].
  rewrite lookup_total_out_of_range by (simpl; lia). done.
Qed.

Lemma subcontext_lookup_old s c d :
  d < length s -> (subcontext s c).1 !!! d = s !!! d.
Proof. intros Hd. simpl. by rewrite lookup_total_app_l. Qed.

Lemma subcontext_lookup_new s c :
  (subcontext s c).1 !!! length s =
    QueryContext_init (indent (s !!! c)) (Some c) (Some (params (s !!! c))).
Proof.
  simpl. rewrite lookup_total_app_r by done. by rewrite Nat.sub_diag.
Qed.

Lemma wf_subcontext s c : wf s -> c < length s -> wf (subcontext s c).1.
Proof.
  intros Hwf Hc d p.
  destruct (decide (d < length s)) as [Hd|Hd].
  - rewrite subcontext_lookup_old by done. apply Hwf.
  - destruct (decide (d = length s)) as [->|Hne].
    + rewrite subcontext_lookup_new. simpl. intros [= <-]. done.
    + rewrite lookup_total_out_of_range; [done|].
      simpl. rewrite length_app. simpl. lia.
Qed.

Lemma wf_set_ref s c n alias : wf s -> wf (set_ref s c n alias).
Proof. by apply wf_alter. Qed.

Lemma wf_make_alias s c n : wf s -> wf (make_alias s c n).
Proof. apply wf_set_ref. Qed.

Lemma wf_set_extracted s c n : wf s -> wf (set_extracted s c n).
Proof. intros Hwf. apply wf_make_alias. by apply wf_alter. Qed.
End store_facts.

(** ** Extraction marks and references *)

Section extraction.
Implicit Types (s : Store) (c d : nat) (n : Node).

Lemma set_extracted_parent s c n d :
  parent (set_extracted s c n !!! d) = parent (s !!! d).
Proof. unfold set_extracted, make_alias, set_ref. by rewrite !parent_alter. Qed.

Lemma set_extracted_top_context s c n d :
  top_context (set_extracted s c n) d = top_context s d.
Proof. apply top_context_from_ext. intros. apply set_extracted_parent. Qed.

Lemma set_extracted_lookup_ne s c n d :
  d <> c -> set_extracted s c n !!! d = s !!! d.
Proof.
  intros Hne. unfold set_extracted, make_alias, set_ref.
  by rewrite !list_lookup_total_alter_ne.
Qed.

Lemma set_extracted_lookup_eq s c n :
  c < length s ->
  extracted_subexprs (set_extracted s c n !!! c) = {[ n ]} ∪ extracted_subexprs (s !!! c)
  /\ is_Some (table_refs (set_extracted s c n !!! c) !! n).
Proof.
  intros Hc. unfold set_extracted, make_alias, set_ref.
  rewrite !list_lookup_total_alter_eq by (rewrite ?length_alter; done).
  simpl. split; [done|]. rewrite lookup_insert_eq. by eexists.
Qed.

(** On the top context itself [set_extracted] does what [is_extracted]
    then reads, from every context of the tree. *)
Lemma set_extracted_on_top s c n d :
  c < length s -> top_context s d = c ->
  is_extracted (set_extracted s c n) d n = true.
Proof.
  intros Hc Htop. unfold is_extracted.
  rewrite set_extracted_top_context, Htop.
  destruct (set_extracted_lookup_eq s c n Hc) as [-> _].
  apply bool_decide_eq_true. set_solver.
Qed.
End extraction.

(** ** Alias assignment *)

Section aliasing.
Implicit Types (s : Store) (c d p : nat) (n : Node).

Lemma alias_name_inj (i j : nat) : "t" +:+ pretty i = "t" +:+ pretty j -> i = j.
Proof. intros H. apply (inj (String.app "t")) in H. by apply (inj pretty) in H. Qed.

Lemma NoDup_alias_names N : NoDup (alias_names N).
Proof.
  apply NoDup_fmap_2; [|apply NoDup_seq].
  intros i j. apply alias_name_inj.
Qed.

Lemma make_alias_loop_fresh s n i l :
  (forall a, a ∈ l -> table_refs (s !!! a) !! n = None) ->
  make_alias_loop s n i l =
    "t" +:+ pretty (i + sum_list ((fun a => size (table_refs (s !!! a))) <$> l)).
Proof.
  revert i. induction l as [|a l IH]; intros i Hl; simpl.
  - by rewrite Nat.add_0_r.
  - rewrite (Hl a) by left. rewrite IH by (intros; apply Hl; by right).
    by rewrite Nat.add_assoc.
Qed.

Lemma make_alias_loop_first s n i before p after alias :
  (forall a, a ∈ before -> table_refs (s !!! a) !! n = None) ->
  table_refs (s !!! p) !! n = Some alias ->
  make_alias_loop s n i (before ++ p :: after) = alias.
Proof.
  revert i. induction before as [|a before IH]; intros i Hb Hp; simpl.
  - by rewrite Hp.
  - rewrite (Hb a) by left. apply IH; [|done]. intros. apply Hb. by right.
Qed.

Lemma make_alias_loop_found s n i j l :
  (exists a, a ∈ l /\ is_Some (table_refs (s !!! a) !! n)) ->
  make_alias_loop s n i l = make_alias_loop s n j l.
Proof.
  revert i j. induction l as [|a l IH]; intros i j (b & Hb & Hsome); simpl.
  - by apply elem_of_nil in Hb.
  - destruct (table_refs (s !!! a) !! n) as [alias|] eqn:Ha; [done|].
    apply IH. exists b. split; [|done].
    apply elem_of_cons in Hb as [->|Hb]; [|done].
    rewrite Ha in Hsome. by destruct Hsome.
Qed.

Lemma make_alias_loop_ext s s' n i l :
  (forall a, a ∈ l -> table_refs (s' !!! a) = table_refs (s !!! a)) ->
  make_alias_loop s' n i l = make_alias_loop s n i l.
Proof.
  revert i. induction l as [|a l IH]; intros i Hl; simpl; [done|].
  rewrite (Hl a) by left.
  destruct (table_refs (s !!! a) !! n); [done|].
  apply IH. intros. apply Hl. by right.
Qed.

Lemma make_alias_parent s c n d :
  parent (make_alias s c n !!! d) = parent (s !!! d).
Proof. unfold make_alias, set_ref. by rewrite parent_alter. Qed.

Lemma make_alias_contexts s c n d b :
  _contexts (make_alias s c n) d b = _contexts s d b.
Proof.
  unfold _contexts. destruct b; [|done].
  apply contexts_from_ext. intros. apply make_alias_parent.
Qed.

Lemma make_alias_lookup_ne s c n d : d <> c -> make_alias s c n !!! d = s !!! d.
Proof. intros. unfold make_alias, set_ref. by rewrite list_lookup_total_alter_ne. Qed.

Lemma make_alias_table s c n :
  c < length s ->
  table_refs (make_alias s c n !!! c) =
    <[n := make_alias_loop s n (size (table_refs (s !!! c)))
             (drop 1 (_contexts s c true))]> (table_refs (s !!! c)).
Proof.
  intros Hc. unfold make_alias, set_ref.
  by rewrite list_lookup_total_alter_eq.
Qed.

Lemma set_ref_top_context s d n alias c :
  top_context (set_ref s d n alias) c = top_context s c.
Proof. apply top_context_from_ext. intros. by apply parent_alter. Qed.

Lemma length_make_alias s c n : length (make_alias s c n) = length s.
Proof. unfold make_alias, set_ref. apply length_alter. Qed.

(** The ancestors of a context are older than it. *)
Lemma ancestors_lt s c a : wf s -> a ∈ drop 1 (_contexts s c true) -> a < c.
Proof.
  intros Hwf. rewrite contexts_unfold by done. simpl.
  destruct (parent (s !!! c)) as [p|] eqn:Hp; [|by intros ?%elem_of_nil].
  intros Ha%contexts_le; [|done]. apply Hwf in Hp. lia.
Qed.

Lemma visible_count_split s c :
  visible_count s c =
    size (table_refs (s !!! c)) +
    sum_list ((fun a => size (table_refs (s !!! a))) <$> drop 1 (_contexts s c true)).
Proof.
  unfold visible_count, _contexts. destruct c; done.
Qed.

Lemma has_ref_true s c n :
  has_ref s c n true = true <->
  is_Some (table_refs (s !!! c) !! n) \/
  exists a, a ∈ drop 1 (_contexts s c true) /\ is_Some (table_refs (s !!! a) !! n).
Proof.
  unfold has_ref.
  assert (Hc : exists l, _contexts s c true = c :: l).
  { unfold _contexts. destruct c; by eexists. }
  destruct Hc as [l ->]. rewrite existsb_exists. simpl drop. split.
  - intros (a & Ha & Hs). apply bool_decide_eq_true in Hs.
    apply list_elem_of_In, elem_of_cons in Ha as [->|Ha]; [by left|].
    right. by exists a.
  - intros [Hs|(a & Ha & Hs)].
    + exists c. split; [by left|by apply bool_decide_eq_true].
    + exists a. split; [|by apply bool_decide_eq_true].
      apply list_elem_of_In. by right.
Qed.
End aliasing.

(** ** Results on the query context *)

(** C1, on a context below the top: [set_extracted] records the node in the
    calling context's own extracted set and gives it an alias there, but the
    top context's extracted set is left as it was, so [is_extracted] still
    answers false for the node from every context of the tree. *)
Theorem set_extracted_below_top_unseen (s : Store) (c : nat) (n : Node) :
  wf s -> c < length s -> parent (s !!! c) <> None ->
  n ∉ extracted_subexprs (s !!! top_context s c) ->
  let s' := set_extracted s c n in
  n ∈ extracted_subexprs (s' !!! c) /\
  is_Some (table_refs (s' !!! c) !! n) /\
  extracted_subexprs (s' !!! top_context s' c) =
    extracted_subexprs (s !!! top_context s c) /\
  (forall d, top_context s d = top_context s c -> is_extracted s' d n = false).
Proof.
  intros Hwf Hc Hpar Hnot s'.
  assert (Hne : top_context s c <> c).
  { intros Heq. destruct (top_context_root s c Hwf) as [Hroot _].
    rewrite Heq in Hroot. done. }
  destruct (set_extracted_lookup_eq s c n Hc) as [Hext Hsome].
  assert (Htop : extracted_subexprs (s' !!! top_context s' c) =
                 extracted_subexprs (s !!! top_context s c)).
  { unfold s'. rewrite set_extracted_top_context.
    by rewrite set_extracted_lookup_ne. }
  split; [|split; [|split]].
  - unfold s'. rewrite Hext. apply elem_of_union. left. by apply elem_of_singleton.
  - exact Hsome.
  - exact Htop.
  - intros d Hd. unfold is_extracted, s'.
    rewrite set_extracted_top_context, Hd, set_extracted_lookup_ne by done.
    by apply bool_decide_eq_false.
Qed.

Lemma set_extracted_below_top_unseen_witness :
  is_extracted (set_extracted root_and_child 1 table_a) 1 table_a = false /\
  is_extracted (set_extracted root_and_child 1 table_a) 0 table_a = false.
Proof.
  assert (Hwf : wf root_and_child).
  { apply wf_subcontext; [apply wf_root_store|simpl; lia]. }
  assert (H1 : 1 < length root_and_child) by (simpl; lia).
  assert (Hp : parent (root_and_child !!! 1) <> None) by done.
  assert (Hn : table_a ∉ extracted_subexprs (root_and_child !!! top_context root_and_child 1)).
  { vm_compute. set_solver. }
  destruct (set_extracted_below_top_unseen root_and_child 1 table_a Hwf H1 Hp Hn)
    as (_ & _ & _ & Hd).
  split; apply Hd; reflexivity.
Defined.

(** C2 as stated fails: with a node in the top context's extracted set and
    no alias recorded for it, [get_ref] returns [None] normally. *)
Lemma get_ref_extracted_unaliased_returns_none :
  is_extracted extracted_unaliased 0 table_a = true /\
  table_refs (extracted_unaliased !!! top_context extracted_unaliased 0) !! table_a = None /\
  get_ref extracted_unaliased 0 table_a = Ok None /\
  (forall e, get_ref extracted_unaliased 0 table_a <> Raise e).
Proof.
  assert (H : get_ref extracted_unaliased 0 table_a = Ok None) by (vm_compute; reflexivity).
  split_and!; [vm_compute; reflexivity|vm_compute; reflexivity|done|].
  intros e. by rewrite H.
Qed.

(** C2 (amended): for a node in the top context's extracted set, [get_ref]
    called on any context of the tree returns normally the top context's
    alias-table entry for the node, the recorded alias or [None], whatever
    the calling context's own table holds. *)
Theorem get_ref_extracted (s : Store) (c : nat) (n : Node) :
  wf s -> is_extracted s c n = true ->
  get_ref s c n = Ok (table_refs (s !!! top_context s c) !! n) /\
  parent (s !!! top_context s c) = None /\
  top_context s c ∈ _contexts s c true /\
  (forall d alias, d <> top_context s c ->
     get_ref (set_ref s d n alias) c n = get_ref s c n).
Proof.
  intros Hwf Hext. repeat split.
  - unfold get_ref. by rewrite Hext.
  - by apply top_context_root.
  - by apply top_context_in_contexts.
  - intros d alias Hd. unfold get_ref, is_extracted.
    rewrite set_ref_top_context.
    assert (Hd' : set_ref s d n alias !!! top_context s c = s !!! top_context s c).
    { unfold set_ref. by rewrite list_lookup_total_alter_ne. }
    rewrite !Hd'. unfold is_extracted in Hext. by rewrite Hext.
Qed.

Lemma get_ref_extracted_witness :
  let s := set_ref (subcontext (set_extracted (root_store 2 None) 0 table_a) 0).1
             1 table_a "local" in
  top_context s 1 = 0 /\
  table_refs (s !!! 1) !! table_a = Some "local" /\
  get_ref s 1 table_a = Ok (Some "t0") /\
  get_ref (set_ref s 1 table_a "other") 1 table_a = Ok (Some "t0").
Proof.
  intros s.
  assert (Hwf : wf s).
  { apply wf_set_ref, wf_subcontext; [apply wf_set_extracted, wf_root_store|].
    vm_compute. lia. }
  assert (He : is_extracted s 1 table_a = true) by (vm_compute; reflexivity).
  assert (Htop : top_context s 1 = 0) by (vm_compute; reflexivity).
  destruct (get_ref_extracted s 1 table_a Hwf He) as (Href & _ & _ & Hlocal).
  split; [exact Htop|]. split; [vm_compute; reflexivity|].
  assert (Hroot : get_ref s 1 table_a = Ok (Some "t0")).
  { rewrite Href. vm_compute. reflexivity. }
  split; [exact Hroot|].
  rewrite (Hlocal 1 "other"); [exact Hroot|].
  rewrite Htop. discriminate.
Defined.

(** C4 as stated fails: in a root context a node new to it gets [t0] from
    the first [make_alias] and [t1] from the second. *)
Lemma make_alias_twice_renumbers :
  let s1 := make_alias (root_store 2 None) 0 table_a in
  let s2 := make_alias s1 0 table_a in
  table_refs (s1 !!! 0) !! table_a = Some "t0" /\
  table_refs (s2 !!! 0) !! table_a = Some "t1" /\
  table_refs (s2 !!! 0) !! table_a <> table_refs (s1 !!! 0) !! table_a.
Proof. vm_compute. split_and!; [reflexivity|reflexivity|discriminate]. Qed.

(** C4 (amended): two [make_alias] calls in a row on the same node and
    context leave the node with the same alias exactly when the node already
    had an alias in that context or in one of its ancestors before the first
    call.  When an ancestor holds an alias for the node, both calls copy the
    alias of the nearest such ancestor; when only the calling context holds
    one, the first call replaces it by [t<N>], [N] being the number of
    aliases visible from the context, and the second call records [t<N>]
    again; a node new to the visible chain is given [t<i>] by the first call
    and [t<i+1>] by the second, [i] being the number of aliases visible. *)
Theorem make_alias_twice (s : Store) (c : nat) (n : Node) :
  wf s -> c < length s ->
  let s1 := make_alias s c n in
  let s2 := make_alias s1 c n in
  let ancestors := drop 1 (_contexts s c true) in
  (table_refs (s2 !!! c) !! n = table_refs (s1 !!! c) !! n <->
   has_ref s c n true = true) /\
  (forall before p after alias,
     ancestors = before ++ p :: after ->
     (forall a, a ∈ before -> table_refs (s !!! a) !! n = None) ->
     table_refs (s !!! p) !! n = Some alias ->
     table_refs (s1 !!! c) !! n = Some alias /\
     table_refs (s2 !!! c) !! n = Some alias) /\
  (is_Some (table_refs (s !!! c) !! n) ->
   (forall a, a ∈ ancestors -> table_refs (s !!! a) !! n = None) ->
   table_refs (s1 !!! c) !! n = Some ("t" +:+ pretty (visible_count s c)) /\
   table_refs (s2 !!! c) !! n = Some ("t" +:+ pretty (visible_count s c))) /\
  (has_ref s c n true = false ->
   table_refs (s1 !!! c) !! n = Some ("t" +:+ pretty (visible_count s c)) /\
   table_refs (s2 !!! c) !! n = Some ("t" +:+ pretty (S (visible_count s c)))).
Proof.
  intros Hwf Hc s1 s2 ancestors.
  assert (H1 := make_alias_table s c n Hc).
  assert (Hc1 : c < length s1) by (unfold s1; by rewrite length_make_alias).
  assert (H2 := make_alias_table s1 c n Hc1).
  fold s1 in H1. fold s2 in H2.
  unfold s1 at 3 in H2. rewrite make_alias_contexts in H2.
  rewrite (make_alias_loop_ext s s1) in H2; last first.
  { intros a Ha%ancestors_lt; [|done].
    unfold s1. rewrite make_alias_lookup_ne by lia. done. }
  fold ancestors in H1, H2.
  set (T := table_refs (s !!! c)) in *.
  rewrite H2, H1, !lookup_insert_eq. clear H1 H2.
  split; [|split; [|split]].
  - destruct (has_ref s c n true) eqn:Href.
    + split; [done|intros _]. f_equal.
      apply has_ref_true in Href as [Hs|Ha].
      * by rewrite map_size_insert_Some.
      * by apply make_alias_loop_found.
    + split; [|done]. intros Heq.
      assert (HT : T !! n = None).
      { apply eq_None_not_Some. intros Hs.
        assert (has_ref s c n true = true) by (apply has_ref_true; by left).
        congruence. }
      assert (HA : forall a, a ∈ ancestors -> table_refs (s !!! a) !! n = None).
      { intros a Ha. apply eq_None_not_Some. intros Hs.
        assert (has_ref s c n true = true) by (apply has_ref_true; right; by exists a).
        congruence. }
      rewrite map_size_insert_None in Heq by done.
      rewrite !make_alias_loop_fresh in Heq by done.
      apply (inj Some), alias_name_inj in Heq. lia.
  - intros before p after alias -> Hbefore Hp.
    by rewrite !(make_alias_loop_first s n _ before p after alias).
  - intros HT HA. rewrite map_size_insert_Some by done.
    rewrite !make_alias_loop_fresh by done.
    rewrite visible_count_split. done.
  - intros Href.
    assert (HT : T !! n = None).
    { apply eq_None_not_Some. intros Hs.
      assert (has_ref s c n true = true) by (apply has_ref_true; by left). congruence. }
    assert (HA : forall a, a ∈ ancestors -> table_refs (s !!! a) !! n = None).
    { intros a Ha. apply eq_None_not_Some. intros Hs.
      assert (has_ref s c n true = true) by (apply has_ref_true; right; by exists a).
      congruence. }
    rewrite map_size_insert_None by done.
    rewrite !make_alias_loop_fresh by done.
    rewrite visible_count_split. done.
Qed.

Lemma make_alias_twice_witness :
  let s := make_alias root_and_child 0 table_a in
  let r := make_alias (make_alias (root_store 2 None) 0 table_a) 0 table_b in
  (table_refs (s !!! 0) !! table_a = Some "t0" /\
   table_refs (make_alias s 1 table_a !!! 1) !! table_a = Some "t0" /\
   table_refs (make_alias (make_alias s 1 table_a) 1 table_a !!! 1) !! table_a
     = Some "t0") /\
  (table_refs (r !!! 0) !! table_a = Some "t0" /\
   table_refs (make_alias r 0 table_a !!! 0) !! table_a = Some "t2" /\
   table_refs (make_alias (make_alias r 0 table_a) 0 table_a !!! 0) !! table_a
     = Some "t2").
Proof.
  intros s r. split.
  - assert (Hwf : wf s).
    { apply wf_make_alias, wf_subcontext; [apply wf_root_store|simpl; lia]. }
    assert (Hc : 1 < length s) by (vm_compute; lia).
    assert (Hp : table_refs (s !!! 0) !! table_a = Some "t0") by (vm_compute; reflexivity).
    split; [exact Hp|].
    destruct (make_alias_twice s 1 table_a Hwf Hc) as (_ & Hcopy & _).
    specialize (Hcopy [] 0 [] "t0"). apply Hcopy.
    + vm_compute. reflexivity.
    + intros a Ha. apply elem_of_nil in Ha. done.
    + exact Hp.
  - assert (Hwf : wf r) by (do 2 apply wf_make_alias; apply wf_root_store).
    assert (Hc : 0 < length r) by (vm_compute; lia).
    split; [vm_compute; reflexivity|].
    destruct (make_alias_twice r 0 table_a Hwf Hc) as (_ & _ & Hself & _).
    assert (Hcount : "t" +:+ pretty (visible_count r 0) = "t2") by (vm_compute; reflexivity).
    rewrite <-Hcount. apply Hself.
    + vm_compute. by eexists.
    + intros a Ha. exfalso. vm_compute in Ha. apply elem_of_nil in Ha. done.
Defined.

(** ** Alias numbering along a context chain *)

Section numbering.
Implicit Types (s : Store) (c d p : nat) (n : Node).

Lemma visible_unfold s c :
  wf s ->
  visible_aliases s c =
    aliases (s !!! c) ++
    match parent (s !!! c) with
    | Some p => visible_aliases s p
    | None => []
    end
  /\ visible_count s c =
    size (table_refs (s !!! c)) +
    match parent (s !!! c) with
    | Some p => visible_count s p
    | None => 0
    end.
Proof.
  intros Hwf. unfold visible_aliases, visible_count.
  rewrite (contexts_unfold s c Hwf). simpl.
  destruct (parent (s !!! c)); simpl; [done|by rewrite app_nil_r].
Qed.

(** Contexts that share the tables along a chain see the same aliases. *)
Lemma visible_ext s s' c :
  (forall d, parent (s' !!! d) = parent (s !!! d)) ->
  (forall a, a ∈ _contexts s c true -> table_refs (s' !!! a) = table_refs (s !!! a)) ->
  visible_aliases s' c = visible_aliases s c /\ visible_count s' c = visible_count s c.
Proof.
  intros Hp Ht. unfold visible_aliases, visible_count, _contexts in *.
  rewrite (contexts_from_ext c s s' c Hp). split.
  - apply Forall_bind_ext, Forall_forall. intros a Ha.
    unfold aliases. by rewrite Ht.
  - f_equal. apply Forall_fmap_ext, Forall_forall. intros a Ha. by rewrite Ht.
Qed.

Lemma numbered_root_store i ps : numbered (root_store i ps).
Proof.
  intros c. destruct (visible_unfold _ c (wf_root_store i ps)) as [-> ->].
  destruct c as [|c]; [done|].
  by rewrite lookup_total_out_of_range by (simpl; lia).
Qed.

Lemma numbered_subcontext s c :
  wf s -> c < length s -> numbered s -> numbered (subcontext s c).1.
Proof.
  intros Hwf Hc Hnum.
  assert (Hwf' := wf_subcontext s c Hwf Hc).
  assert (Hlook := subcontext_lookup_old s c).
  assert (Hnew := subcontext_lookup_new s c).
  assert (Hlen : length (subcontext s c).1 = S (length s)).
  { simpl. rewrite length_app. simpl. lia. }
  remember (subcontext s c).1 as s' eqn:Hs'. clear Hs'.
  assert (Hold : forall d, d < length s ->
            visible_aliases s' d = visible_aliases s d /\
            visible_count s' d = visible_count s d).
  { intros d. induction (lt_wf d) as [d _ IH]. intros Hd.
    destruct (visible_unfold _ d Hwf') as [-> ->].
    destruct (visible_unfold _ d Hwf) as [-> ->].
    rewrite Hlook by done.
    destruct (parent (s !!! d)) as [p|] eqn:Hp; [|done].
    apply Hwf in Hp. destruct (IH p Hp) as [-> ->]; [lia|done]. }
  intros d. destruct (decide (d < length s)) as [Hd|Hd].
  - destruct (Hold d Hd) as [-> ->]. apply Hnum.
  - destruct (visible_unfold _ d Hwf') as [-> ->].
    destruct (decide (d = length s)) as [->|Hne].
    + rewrite Hnew. simpl.
      destruct (Hold c Hc) as [-> ->]. apply Hnum.
    + rewrite lookup_total_out_of_range by lia. done.
Qed.

Lemma aliases_insert_fresh (m : gmap Node string) n alias :
  m !! n = None -> (map_to_list (<[n := alias]> m)).*2 ≡ₚ alias :: (map_to_list m).*2.
Proof. intros Hn. by rewrite map_to_list_insert by done. Qed.

Lemma alias_names_S N : alias_names (S N) ≡ₚ ("t" +:+ pretty N) :: alias_names N.
Proof.
  unfold alias_names. rewrite seq_S, fmap_app. simpl.
  by rewrite Permutation_app_comm.
Qed.

(** Giving a node new to the chain an alias in a context with no alias
    below it keeps the numbering. *)
Lemma numbered_make_alias s c n :
  wf s -> c < length s -> numbered s ->
  (forall a, a ∈ _contexts s c true -> table_refs (s !!! a) !! n = None) ->
  no_alias_below s c ->
  numbered (make_alias s c n).
Proof.
  intros Hwf Hc Hnum Hfresh Hbelow.
  assert (Hwf' := wf_make_alias s c n Hwf).
  assert (Hsame : forall d, c ∉ _contexts s d true ->
            visible_aliases (make_alias s c n) d = visible_aliases s d /\
            visible_count (make_alias s c n) d = visible_count s d).
  { intros d Hd. apply visible_ext; [intros; apply make_alias_parent|].
    intros a Ha. rewrite make_alias_lookup_ne; [done|]. by intros ->. }
  assert (Hself : c ∈ _contexts s c true).
  { rewrite contexts_unfold by done. by left. }
  assert (Hfresh_anc : forall a, a ∈ drop 1 (_contexts s c true) ->
            table_refs (s !!! a) !! n = None).
  { intros a Ha. apply Hfresh. unfold _contexts in *. destruct c; by right. }
  intros d. induction (lt_wf d) as [d _ IH].
  destruct (decide (d = c)) as [->|Hne].
  - destruct (visible_unfold _ c Hwf') as [-> ->].
    unfold aliases. rewrite make_alias_parent, make_alias_table by done.
    rewrite make_alias_loop_fresh by done.
    rewrite <-visible_count_split.
    rewrite map_size_insert_None by (by apply Hfresh).
    assert (Hrest :
      match parent (s !!! c) with
      | Some p => visible_aliases (make_alias s c n) p
      | None => []
      end = match parent (s !!! c) with
            | Some p => visible_aliases s p
            | None => []
            end /\
      match parent (s !!! c) with
      | Some p => visible_count (make_alias s c n) p
      | None => 0
      end = match parent (s !!! c) with
            | Some p => visible_count s p
            | None => 0
            end).
    { destruct (parent (s !!! c)) as [p|] eqn:Hp; [|done].
      apply Hsame. intros Hin%contexts_le; [|done]. apply Hwf in Hp. lia. }
    destruct Hrest as [-> ->].
    rewrite aliases_insert_fresh by (by apply Hfresh). simpl.
    destruct (visible_unfold s c Hwf) as [Hv Hn].
    fold (aliases (s !!! c)). rewrite <-Hv.
    rewrite <-Hn, alias_names_S. by rewrite (Hnum c).
  - destruct (decide (c ∈ _contexts s d true)) as [Hin|Hnin].
    + destruct (visible_unfold _ d Hwf') as [-> ->].
      rewrite make_alias_parent, make_alias_lookup_ne by done.
      unfold aliases. rewrite (Hbelow d Hne Hin).
      rewrite map_to_list_empty, map_size_empty. simpl.
      rewrite contexts_unfold in Hin by done.
      apply elem_of_cons in Hin as [->|Hin]; [done|].
      destruct (parent (s !!! d)) as [p|] eqn:Hp; [|by apply elem_of_nil in Hin].
      apply IH. by apply Hwf.
    + destruct (Hsame d Hnin) as [-> ->]. apply Hnum.
Qed.

Lemma run_call_length s call : length s <= length (run_call s call).
Proof.
  destruct call; simpl.
  - rewrite length_app. lia.
  - by rewrite length_make_alias.
Qed.

(** Scripts that alias distinct nodes ancestors first keep the numbering. *)
Lemma run_numbered calls s :
  wf s -> numbered s ->
  (forall a n, is_Some (table_refs (s !!! a) !! n) -> n ∉ aliased_nodes calls) ->
  NoDup (aliased_nodes calls) ->
  calls_valid s calls -> calls_ancestors_first s calls ->
  wf (run s calls) /\ numbered (run s calls).
Proof.
  revert s. induction calls as [|call calls IH]; intros s Hwf Hnum Hkeys Hnd Hval Hin;
    [done|].
  destruct Hval as [Hself Hval], Hin as [Hbelow Hin].
  change (run s (call :: calls)) with (run (run_call s call) calls).
  destruct call as [self|self n].
  - change (run_call s (CallSubcontext self)) with (subcontext s self).1 in *.
    change (aliased_nodes (CallSubcontext self :: calls))
      with (aliased_nodes calls) in *.
    apply IH; try done.
    + by apply (wf_subcontext s self).
    + by apply (numbered_subcontext s self).
    + intros a n Hs. apply (Hkeys a n).
      destruct (decide (a < length s)) as [Ha|Ha].
      * by rewrite <-(subcontext_lookup_old s self a Ha).
      * destruct (decide (a = length s)) as [->|Hne].
        -- rewrite (subcontext_lookup_new s self) in Hs. simpl in Hs.
           rewrite lookup_empty in Hs. by destruct Hs.
        -- rewrite lookup_total_out_of_range in Hs
             by (simpl; rewrite length_app; simpl; lia).
           simpl in Hs. rewrite lookup_empty in Hs. by destruct Hs.
  - change (run_call s (CallMakeAlias self n)) with (make_alias s self n) in *.
    change (aliased_nodes (CallMakeAlias self n :: calls))
      with (n :: aliased_nodes calls) in *.
    apply NoDup_cons in Hnd as [Hn Hnd].
    assert (Hfresh : forall a, table_refs (s !!! a) !! n = None).
    { intros a. apply eq_None_not_Some. intros Hs.
      apply (Hkeys a n Hs). by left. }
    apply IH; try done.
    + by apply wf_make_alias.
    + by apply numbered_make_alias.
    + intros a m Hs. destruct (decide (a = self)) as [->|Hne].
      * rewrite make_alias_table in Hs by done.
        destruct (decide (m = n)) as [->|Hmn]; [done|].
        rewrite lookup_insert_ne in Hs by done.
        intros Hm. apply (Hkeys self m Hs). by right.
      * rewrite make_alias_lookup_ne in Hs by done.
        intros Hm. apply (Hkeys a m Hs). by right.
Qed.
End numbering.

(** C3 as stated fails: an alias assigned in a subcontext and then one
    assigned in its parent, to two different nodes, are both [t0], and both
    are visible from the subcontext. *)
Lemma visible_aliases_clash :
  let calls := [CallSubcontext 0; CallMakeAlias 1 table_a; CallMakeAlias 0 table_b] in
  NoDup (aliased_nodes calls) /\
  calls_valid (root_store 2 None) calls /\
  visible_aliases (run (root_store 2 None) calls) 1 = ["t0"; "t0"] /\
  ~ NoDup (visible_aliases (run (root_store 2 None) calls) 1).
Proof.
  assert (Hv : visible_aliases
                 (run (root_store 2 None)
                    [CallSubcontext 0; CallMakeAlias 1 table_a; CallMakeAlias 0 table_b]) 1
               = ["t0"; "t0"]) by (vm_compute; reflexivity).
  split; [|split; [|split]].
  - apply (bool_decide_unpack _). vm_compute. exact I.
  - simpl. lia.
  - exact Hv.
  - rewrite Hv. intros [Hin _]%NoDup_cons. apply Hin. by left.
Qed.

(** C3 (amended): from the root context of a compilation, after any
    sequence of [subcontext] calls and of [make_alias] calls on pairwise
    distinct nodes in which every [make_alias] is made on a context that
    has no context with an alias below it (a context is given its aliases
    before its descendants are), the alias strings visible from any
    context, its own and its ancestors', are pairwise distinct. *)
Theorem visible_aliases_distinct (indent : nat) (ps : option (gmap Node PyValue))
    (calls : list Call) (c : nat) :
  NoDup (aliased_nodes calls) ->
  calls_valid (root_store indent ps) calls ->
  calls_ancestors_first (root_store indent ps) calls ->
  NoDup (visible_aliases (run (root_store indent ps) calls) c).
Proof.
  intros Hnd Hval Hin.
  destruct (run_numbered calls (root_store indent ps)) as [_ Hnum]; try done.
  - apply wf_root_store.
  - apply numbered_root_store.
  - intros a n Hs. exfalso. destruct a as [|a].
    + simpl in Hs. rewrite lookup_empty in Hs. by destruct Hs.
    + rewrite lookup_total_out_of_range in Hs by (simpl; lia).
      simpl in Hs. rewrite lookup_empty in Hs. by destruct Hs.
  - rewrite (Hnum c). apply NoDup_alias_names.
Qed.

Lemma visible_aliases_distinct_witness :
  NoDup (visible_aliases
           (run (root_store 2 None)
              [CallMakeAlias 0 table_a; CallSubcontext 0; CallMakeAlias 1 table_b]) 1).
Proof.
  apply visible_aliases_distinct.
  - apply (bool_decide_unpack _). vm_compute. exact I.
  - simpl. lia.
  - split; [|split; [exact I|split; [|exact I]]].
    + intros [|d] Hne Hin; [done|reflexivity].
    + intros [|[|d]] Hne Hin; [|done|reflexivity].
      vm_compute in Hin. apply list_elem_of_singleton in Hin. discriminate.
Defined.

(** ** What the bookkeeping operations leave alone *)

(** The operations of a context other than [get_compiled_expr]. *)
Inductive ContextOp : Type :=
  | OpSubcontext (self : nat)
  | OpMakeAlias (self : nat) (node : Node)
  | OpSetRef (self : nat) (node : Node) (alias : string)
  | OpSetExtracted (self : nat) (node : Node)
  | OpSetAlwaysAlias (self : nat)
  | OpSetQuery (self : nat) (q : Query).

Definition op_self (op : ContextOp) : nat :=
  match op with
  | OpSubcontext self | OpMakeAlias self _ | OpSetRef self _ _
  | OpSetExtracted self _ | OpSetAlwaysAlias self | OpSetQuery self _ => self
  end.

Definition apply_op (s : Store) (op : ContextOp) : Store :=
  match op with
  | OpSubcontext self => (subcontext s self).1
  | OpMakeAlias self node => make_alias s self node
  | OpSetRef self node alias => set_ref s self node alias
  | OpSetExtracted self node => set_extracted s self node
  | OpSetAlwaysAlias self => set_always_alias s self
  | OpSetQuery self q => set_query s self q
  end.

(** Every operation is called on a context that exists at that time. *)
Fixpoint ops_valid (s : Store) (ops : list ContextOp) : Prop :=
  match ops with
  | [] => True
  | op :: rest => op_self op < length s /\ ops_valid (apply_op s op) rest
  end.

(** [s'] has all the contexts of [s], with the same parents and memos and
    with at least the same extraction marks. *)
Definition keeps (s s' : Store) : Prop :=
  length s <= length s' /\
  forall d, d < length s ->
    parent (s' !!! d) = parent (s !!! d) /\
    subquery_memo (s' !!! d) = subquery_memo (s !!! d) /\
    extracted_subexprs (s !!! d) ⊆ extracted_subexprs (s' !!! d).

Section keeping.
Implicit Types (s : Store) (c d : nat) (n : Node).

Lemma length_subcontext s c : length (subcontext s c).1 = S (length s).
Proof. simpl. rewrite length_app. simpl. lia. Qed.

Lemma keeps_refl s : keeps s s.
Proof. split; [done|]. intros d _. by repeat split. Qed.

Lemma keeps_trans s1 s2 s3 : keeps s1 s2 -> keeps s2 s3 -> keeps s1 s3.
Proof.
  intros [Hl1 H1] [Hl2 H2]. split; [lia|]. intros d Hd.
  destruct (H1 d Hd) as (Hp1 & Hm1 & He1).
  destruct (H2 d) as (Hp2 & Hm2 & He2); [lia|].
  split; [congruence|]. split; [congruence|]. by etrans.
Qed.

(** An update of one context that touches neither its parent nor its memo
    and only adds extraction marks. *)
Lemma keeps_alter f s c :
  (forall q, parent (f q) = parent q /\
             subquery_memo (f q) = subquery_memo q /\
             extracted_subexprs q ⊆ extracted_subexprs (f q)) ->
  keeps s (alter f c s).
Proof.
  intros Hf. split; [by rewrite length_alter|]. intros d Hd.
  destruct (decide (d = c)) as [->|Hne].
  - rewrite list_lookup_total_alter_eq by done. apply Hf.
  - rewrite list_lookup_total_alter_ne by done. by repeat split.
Qed.

Lemma keeps_apply_op s op : op_self op < length s -> keeps s (apply_op s op).
Proof.
  intros Hself. destruct op as [self|self n|self n alias|self n|self|self q];
    simpl in Hself; cbn [apply_op].
  - split; [simpl; rewrite length_app; simpl; lia|].
    intros d Hd. rewrite subcontext_lookup_old by done. by repeat split.
  - apply keeps_alter. intros ctx. by repeat split.
  - apply keeps_alter. intros ctx. by repeat split.
  - eapply keeps_trans; [|apply keeps_alter; intros ctx; by repeat split].
    apply keeps_alter. intros ctx. repeat split; try done. simpl.
    apply union_subseteq_r.
  - apply keeps_alter. intros ctx. by repeat split.
  - apply keeps_alter. intros ctx. by repeat split.
Qed.

Lemma wf_apply_op s op : wf s -> op_self op < length s -> wf (apply_op s op).
Proof.
  intros Hwf Hself. destruct op; cbn [apply_op]; simpl in Hself.
  - by apply wf_subcontext.
  - by apply wf_make_alias.
  - by apply wf_set_ref.
  - by apply wf_set_extracted.
  - by apply wf_alter.
  - by apply wf_alter.
Qed.

Lemma keeps_run ops s :
  wf s -> ops_valid s ops ->
  wf (foldl apply_op s ops) /\ keeps s (foldl apply_op s ops).
Proof.
  revert s. induction ops as [|op ops IH]; intros s Hwf Hval.
  - split; [done|apply keeps_refl].
  - destruct Hval as [Hself Hval]. cbn [foldl].
    destruct (IH (apply_op s op)) as [Hwf' Hk]; [by apply wf_apply_op|done|].
    split; [done|]. eapply keeps_trans; [by apply keeps_apply_op|done].
Qed.

Lemma keeps_top_context s s' c :
  wf s -> wf s' -> keeps s s' -> c < length s -> top_context s' c = top_context s c.
Proof.
  intros Hwf Hwf' [Hlen Hk]. induction (lt_wf c) as [c _ IH]. intros Hc.
  rewrite (top_context_unfold s' c Hwf'), (top_context_unfold s c Hwf).
  destruct (Hk c Hc) as (-> & _ & _).
  destruct (parent (s !!! c)) as [p|] eqn:Hp; [|done].
  apply Hwf in Hp. apply IH; [done|lia].
Qed.
End keeping.

(** ** Memoised compilation *)







Section memo.
Implicit Types (s : Store) (c : nat) (n : Node).


(** A memo hit returns the stored text, changes nothing and compiles
    nothing, whatever the compiler. *)
Lemma get_compiled_expr_hit to_sql s c n text :
  subquery_memo (s !!! top_context s c) !! n = Some text ->
  get_compiled_expr to_sql c n s = (Ok text, s, []).
Proof. intros H. unfold get_compiled_expr. by rewrite H. Qed.









End memo.





(** ** Results on the translator *)

Section translate_failures.
Variable output_dtype : Node -> DataType.
Variable _registry : NodeType -> option Formatter.
Variable type_repr : NodeType -> string.
Variable ibis_literal ibis_struct ibis_map : PyValue -> DataType -> result Node.

Local Abbreviation translate :=
  (translate output_dtype _registry type_repr ibis_literal ibis_struct ibis_map).

(** No rewrite is registered for scalar parameters. *)
Lemma rewrite_step_parameter (op : Node) :
  is_ScalarParameter op = true -> rewrite_step output_dtype op = Ok op.
Proof.
  intros Hop%bool_decide_eq_true. unfold rewrite_step. by rewrite Hop.
Qed.

(** After the rewrite step, a node that is neither a parameter nor a table
    and whose class the registry does not know is refused, by name. *)
Lemma translate_rewritten_undefined (depth context : nat) (op op' : Node) (s : Store) :
  rewrite_step output_dtype op = Ok op' ->
  is_ScalarParameter op' = false -> is_TableNode op' = false ->
  _registry (type_of op') = None ->
  translate depth context op s =
    (Raise (OperationNotDefinedError
              ("No translation rule for " +:+ type_repr (type_of op'))), s).
Proof.
  intros Hrw Hp Ht Hreg.
  destruct depth; simpl; unfold M_bind, M_lift; rewrite Hrw, Hp, Ht, Hreg; done.
Qed.

(** C6: translating a scalar-parameter node for which the context's
    parameter mapping has no value fails with the [KeyError] of the failed
    lookup, which carries the parameter node; no text is produced and the
    store is untouched. *)
Theorem translate_unbound_parameter (depth context : nat) (op : Node) (s : Store) :
  is_ScalarParameter op = true ->
  params (s !!! context) !! op = None ->
  translate depth context op s = (Raise (KeyError op), s).
Proof.
  intros Hop Hparams.
  destruct depth; simpl; unfold M_bind, M_lift;
    rewrite (rewrite_step_parameter op Hop), Hop;
    unfold _trans_param; by rewrite Hparams.
Qed.

(** C7: a node whose class has neither a rewrite nor a registry entry, and
    which is neither a scalar parameter nor a table node, makes [translate]
    fail with [OperationNotDefinedError], whose message names the class. *)
Theorem translate_undefined_operation (depth context : nat) (op : Node) (s : Store) :
  _rewrites output_dtype (type_of op) = None ->
  _registry (type_of op) = None ->
  is_ScalarParameter op = false -> is_TableNode op = false ->
  translate depth context op s =
    (Raise (OperationNotDefinedError
              ("No translation rule for " +:+ type_repr (type_of op))), s).
Proof.
  intros Hrw Hreg Hp Ht. apply translate_rewritten_undefined; try done.
  unfold rewrite_step. by rewrite Hrw.
Qed.
End translate_failures.

Lemma translate_unbound_parameter_witness :
  translate example_output_dtype literal_registry example_type_repr
    example_literal example_literal example_literal 5 0 param_0 (root_store 2 None)
  = (Raise (KeyError param_0), root_store 2 None).
Proof.
  apply translate_unbound_parameter; reflexivity.
Defined.

Lemma translate_undefined_operation_witness :
  translate example_output_dtype literal_registry example_type_repr
    example_literal example_literal example_literal 5 0 unregistered_op (root_store 2 None)
  = (Raise (OperationNotDefinedError "No translation rule for <class 'Levenshtein'>"),
     root_store 2 None).
Proof.
  apply (translate_undefined_operation example_output_dtype literal_registry
           example_type_repr example_literal example_literal example_literal
           5 0 unregistered_op (root_store 2 None)); reflexivity.
Defined.

(** ** Results on the rewrites *)

Section bucket_facts.
Implicit Types (arg lower upper : Node) (stmt : CaseBuilder).

(** One step of the loop of [_bucket] appends one branch. *)
Lemma bucket_step_appends arg closed ce unb (l_cmp r_cmp : Cmp) item stmt id :
  exists c r,
    let out := bucket_step arg closed ce unb l_cmp r_cmp (stmt, id) item in
    cb_cases out.1 = cb_cases stmt ++ [c] /\
    cb_results out.1 = cb_results stmt ++ [r] /\
    cb_base out.1 = cb_base stmt /\ cb_default out.1 = cb_default stmt.
Proof.
  destruct item as [j [lower upper]]. unfold bucket_step.
  destruct (ce && _); by eexists _, _.
Qed.

(** The loop of [_bucket] only appends branches. *)
Lemma bucket_loop_appends arg closed ce unb (l_cmp r_cmp : Cmp) items stmt id :
  exists cs rs,
    let out := foldl (bucket_step arg closed ce unb l_cmp r_cmp) (stmt, id) items in
    cb_cases out.1 = cb_cases stmt ++ cs /\
    cb_results out.1 = cb_results stmt ++ rs /\
    cb_base out.1 = cb_base stmt /\ cb_default out.1 = cb_default stmt.
Proof.
  revert stmt id. induction items as [|item items IH]; intros stmt id.
  - exists [], []. simpl. by rewrite !app_nil_r.
  - destruct (bucket_step_appends arg closed ce unb l_cmp r_cmp item stmt id)
      as (c & r & Hc & Hr & Hb & Hd).
    cbn zeta in *. cbn [foldl].
    destruct (bucket_step arg closed ce unb l_cmp r_cmp (stmt, id) item)
      as [stmt' id'].
    destruct (IH stmt' id') as (cs & rs & Hc' & Hr' & Hb' & Hd').
    cbn zeta in *. simpl in Hc, Hr, Hb, Hd.
    exists (c :: cs), (r :: rs). cbn zeta.
    rewrite Hc', Hr', Hb', Hd', Hc, Hr, Hb, Hd, <-!app_assoc. done.
Qed.

Lemma bind_int_self x v : bind_int x v x = Some (VInt v).
Proof. unfold bind_int. by rewrite decide_True. Qed.

Lemma bind_int_other x v n : n <> x -> bind_int x v n = None.
Proof. intros. unfold bind_int. by rewrite decide_False. Qed.
End bucket_facts.

(** Evaluation of a rewritten bucket expression over a column value. *)
Local Ltac eval_bucket :=
  repeat first
    [ rewrite bind_int_self
    | rewrite bind_int_other by discriminate
    | progress cbn [eval map searched_select val_compare val_and val_of_scalar
                    Z.ltb Z.leb Z.compare Pos.compare Pos.compare_cont] ].

(** C8: for the edges 0, 10, 20 over any column [v]: closed on the left,
    with no catch-all branch and no closed extreme, the rewrite yields the
    CASE with branches [0 <= v < 10] (result 0) and [10 <= v < 20]
    (result 1) and no default, which is 0 at 0, 1 at 10 and null at 20; with
    [include_over] it is 2 at 20; closed on the right with [close_extreme],
    the first branch is [0 <= v <= 10], and the expression is 0 at 0. *)
Theorem bucket_boundary_cases (table : Node) (column : string) (nm : option string) :
  let v := mkNode (TableColumn table column) nm in
  let bucket closed ce over := unnamed (Bucket v edges_0_10_20 closed ce false over) in
  let within (l_cmp r_cmp : Cmp) (lo hi : Z) :=
    unnamed (And (unnamed (l_cmp (py_int lo) v)) (unnamed (r_cmp v (py_int hi)))) in
  (exists r,
     _bucket (bucket closed_left false false) = Ok r /\
     node_op r = SearchedCase [within LessEqual Less 0%Z 10%Z; within LessEqual Less 10%Z 20%Z]
                              [py_int 0; py_int 1] None /\
     eval (bind_int v 0) r = Some (VInt 0) /\
     eval (bind_int v 10) r = Some (VInt 1) /\
     eval (bind_int v 20) r = Some VNull) /\
  (exists r,
     _bucket (bucket closed_left false true) = Ok r /\
     eval (bind_int v 20) r = Some (VInt 2)) /\
  (forall over, exists r cases results,
     _bucket (bucket closed_right true over) = Ok r /\
     node_op r = SearchedCase (within LessEqual LessEqual 0%Z 10%Z :: cases)
                              (py_int 0 :: results) None /\
     eval (bind_int v 0) r = Some (VInt 0)).
Proof.
  intros v bucket within. subst v bucket within. cbn beta. split; [|split].
  - destruct nm; (eexists; split; [vm_compute; reflexivity|]);
      (split; [reflexivity|]); repeat split; eval_bucket; reflexivity.
  - destruct nm; (eexists; split; [vm_compute; reflexivity|]);
      eval_bucket; reflexivity.
  - intros over. destruct nm, over;
      (eexists _, _, _; split; [vm_compute; reflexivity|]);
      (split; [reflexivity|]); eval_bucket; reflexivity.
Qed.

Section bucket_shape.
Implicit Types (arg first : Node) (rest : list Node).

(** The shape of what [_bucket] returns when there is at least one edge:
    a searched CASE without default, named after the bucketed argument when
    that has a name, whose branches are the under-range branch (if
    any), then the branches of the loop, then the over-range branch. *)
Lemma bucket_result arg first rest closed ce iu io nm :
  exists r cases results,
    _bucket (mkNode (Bucket arg (first :: rest) closed ce iu io) nm) = Ok r /\
    node_name r = node_name arg /\
    node_op r =
      SearchedCase
        ((if iu then [unnamed (under_comparator closed ce (length rest) arg first)]
          else []) ++ cases)
        ((if iu then [py_int 0] else []) ++ results) None.
Proof.
  unfold _bucket. cbn [node_op].
  set (l_r := match closed with
              | closed_left => (LessEqual, Less)
              | closed_right => (Less, LessEqual)
              end).
  destruct l_r as [l_cmp r_cmp] eqn:Hlr.
  set (unb := (Z.of_nat (length (first :: rest)) - 1)%Z).
  assert (Hcmp :
    (if bool_decide (unb > 0)%Z then (if ce then Less else r_cmp)
     else (if bool_decide (closed = closed_right) then LessEqual else Less))
    = under_comparator closed ce (length rest)).
  { unfold unb. cbn [length]. subst l_r.
    destruct rest as [|x rest], closed, ce; injection Hlr as <- <-; cbn [length];
      try reflexivity;
      rewrite bool_decide_eq_true_2 by lia; reflexivity. }
  set (start := if iu then _ else _).
  assert (Hstart : exists stmt0 id0,
            start = Ok (stmt0, id0) /\
            cb_base stmt0 = None /\ cb_default stmt0 = None /\
            cb_cases stmt0 =
              (if iu then [unnamed (under_comparator closed ce (length rest) arg first)]
               else []) /\
            cb_results stmt0 = (if iu then [py_int 0] else [])).
  { unfold start. destruct iu; cbn [lookup list_lookup].
    - rewrite Hcmp. by eexists _, _.
    - by eexists _, _. }
  destruct Hstart as (stmt0 & id0 & -> & Hb0 & Hd0 & Hc0 & Hr0).
  cbn [mbind result_bind].
  destruct (bucket_loop_appends arg closed ce unb l_cmp r_cmp
              (enumerate (zip (first :: rest) (drop 1 (first :: rest)))) stmt0 id0)
    as (cs & rs & Hc1 & Hr1 & Hb1 & Hd1).
  cbn zeta in Hc1, Hr1, Hb1, Hd1.
  destruct (foldl _ (stmt0, id0) _) as [stmt1 id1]. cbn [fst] in *.
  destruct (last (first :: rest)) as [final|] eqn:Hlast;
    [|by apply last_None in Hlast].
  set (over := if io then _ else _).
  assert (Hover : exists stmt2 id2 cs' rs',
            over = Ok (stmt2, id2) /\
            cb_base stmt2 = None /\ cb_default stmt2 = None /\
            cb_cases stmt2 = cb_cases stmt1 ++ cs' /\
            cb_results stmt2 = cb_results stmt1 ++ rs').
  { unfold over. destruct io.
    - eexists _, _, [_], [_]. split; [reflexivity|]. cbn [when cb_base cb_default
        cb_cases cb_results]. by rewrite Hb1, Hd1.
    - eexists _, _, [], []. split; [reflexivity|]. by rewrite Hb1, Hd1, !app_nil_r. }
  destruct Hover as (stmt2 & id2 & cs' & rs' & -> & Hb2 & Hd2 & Hc2 & Hr2).
  cbn [mbind result_bind].
  eexists _, (cs ++ cs'), (rs ++ rs'). split; [reflexivity|].
  unfold case_end. rewrite Hb2, Hd2, Hc2, Hr2, Hc1, Hr1, Hc0, Hr0, <-!app_assoc.
  unfold has_name, get_name.
  destruct (node_name arg) as [a|]; by simpl.
Qed.
End bucket_shape.

(** C9 as stated fails: closed on the left, without [close_extreme] and
    with two intervals, the under-range branch compares with [<], not with
    the lower comparator [<=]; closed on the right it compares with [<=],
    not with [<]. *)
Lemma bucket_under_branch_uses_upper_comparator :
  (exists r cases results,
     _bucket (unnamed (Bucket column_v edges_0_10_20 closed_left false true false)) = Ok r /\
     node_op r = SearchedCase (unnamed (Less column_v (py_int 0)) :: cases)
                              (py_int 0 :: results) None /\
     unnamed (Less column_v (py_int 0)) <> unnamed (LessEqual column_v (py_int 0))) /\
  (exists r cases results,
     _bucket (unnamed (Bucket column_v edges_0_10_20 closed_right false true false)) = Ok r /\
     node_op r = SearchedCase (unnamed (LessEqual column_v (py_int 0)) :: cases)
                              (py_int 0 :: results) None /\
     unnamed (LessEqual column_v (py_int 0)) <> unnamed (Less column_v (py_int 0))).
Proof.
  split; (eexists _, _, _; split; [vm_compute; reflexivity|]);
    (split; [reflexivity|discriminate]).
Qed.

(** C9 (amended): with [include_under] and at least one edge, the first
    branch of the rewritten CASE compares the value with the first edge and
    has result 0; its comparator is, when there is at least one interval
    between the edges, [<] if [close_extreme] is set and otherwise the
    interval's upper comparator ([<] closed on the left, [<=] closed on the
    right), and, when there is no interval, [<=] closed on the right and [<]
    closed on the left. *)
Theorem bucket_under_branch (arg first : Node) (rest : list Node) (closed : Closed)
    (close_extreme include_over : bool) (nm : option string) :
  exists r cases results,
    _bucket (mkNode (Bucket arg (first :: rest) closed close_extreme true include_over) nm)
      = Ok r /\
    node_op r =
      SearchedCase
        (unnamed (under_comparator closed close_extreme (length rest) arg first) :: cases)
        (py_int 0 :: results) None /\
    under_comparator closed close_extreme (length rest) =
      match rest with
      | [] => match closed with closed_right => LessEqual | closed_left => Less end
      | _ :: _ =>
          if close_extreme then Less
          else match closed with closed_left => Less | closed_right => LessEqual end
      end.
Proof.
  destruct (bucket_result arg first rest closed close_extreme true include_over nm)
    as (r & cases & results & Hr & _ & Hop).
  exists r, cases, results. split; [exact Hr|]. split; [exact Hop|].
  by destruct rest.
Qed.

Section category_label_shape.
Implicit Types (stmt : CaseBuilder) (labels : list string).

(** The loop of [_category_label] keeps the base and the default. *)
Lemma category_loop_base (items : list (nat * string)) stmt :
  let out := foldl (fun stmt '(i, label) => when stmt (py_int (Z.of_nat i)) (py_str label))
                   stmt items in
  cb_base out = cb_base stmt /\ cb_default out = cb_default stmt.
Proof.
  revert stmt. induction items as [|[i label] items IH]; intros stmt; [done|].
  cbn zeta. cbn [foldl]. destruct (IH (when stmt (py_int (Z.of_nat i)) (py_str label)))
    as [-> ->]. done.
Qed.

(** What [_category_label] returns: a simple CASE over the code, named as
    the rewritten node is. *)
Lemma category_label_result (arg : Node) labels (nulls : option string)
    (nm : option string) :
  exists r cases results,
    _category_label (mkNode (CategoryLabel arg labels nulls) nm) = Ok r /\
    node_name r = nm /\
    node_op r = SimpleCase arg cases results (py_str <$> nulls).
Proof.
  unfold _category_label. cbn [node_op].
  set (loop := foldl _ (expr_case arg) (enumerate labels)).
  destruct (category_loop_base (enumerate labels) (expr_case arg)) as [Hb Hd].
  cbn zeta in Hb, Hd. fold loop in Hb, Hd.
  set (stmt := match nulls with Some n => else_ loop (py_str n) | None => loop end).
  assert (Hstmt : cb_base stmt = Some arg /\ cb_default stmt = py_str <$> nulls).
  { unfold stmt. destruct nulls; cbn [else_ cb_base cb_default fmap option_fmap option_map];
      rewrite ?Hb, ?Hd; done. }
  destruct Hstmt as [Hb' Hd'].
  eexists _, (cb_cases stmt), (cb_results stmt). split; [reflexivity|].
  unfold case_end. rewrite Hb', Hd'. unfold has_name, get_name.
  destruct nm; by simpl.
Qed.
End category_label_shape.

(** C10: the bucket rewrite gives the rewritten CASE the display name of
    the bucketed argument, whatever the name of the Bucket node itself, and
    the category-label rewrite gives it the display name of the
    CategoryLabel node. *)
Theorem rewrites_keep_display_name :
  (forall (arg_op : Op) (nm : string) (first : Node) (rest : list Node)
          (closed : Closed) (close_extreme include_under include_over : bool)
          (bucket_name : option string),
     exists r,
       _bucket (mkNode (Bucket (mkNode arg_op (Some nm)) (first :: rest) closed
                          close_extreme include_under include_over) bucket_name) = Ok r /\
       type_of r = T_SearchedCase /\ node_name r = Some nm) /\
  (forall (arg : Node) (labels : list string) (nulls : option string) (nm : string),
     exists r,
       _category_label (mkNode (CategoryLabel arg labels nulls) (Some nm)) = Ok r /\
       type_of r = T_SimpleCase /\ node_name r = Some nm).
Proof.
  split.
  - intros arg_op nm first rest closed ce iu io bucket_name.
    destruct (bucket_result (mkNode arg_op (Some nm)) first rest closed ce iu io bucket_name)
      as (r & cases & results & Hr & Hname & Hop).
    exists r. split; [exact Hr|]. split; [|exact Hname].
    unfold type_of. by rewrite Hop.
  - intros arg labels nulls nm.
    destruct (category_label_result arg labels nulls (Some nm))
      as (r & cases & results & Hr & Hname & Hop).
    exists r. split; [exact Hr|]. split; [|exact Hname].
    unfold type_of. by rewrite Hop.
Qed.

(** The bucket rewrite does not look at the name of the Bucket node: over
    an unnamed argument the result is unnamed. *)
Lemma bucket_ignores_own_name (arg_op : Op) (first : Node) (rest : list Node)
    (closed : Closed) (close_extreme include_under include_over : bool) (nm : string) :
  exists r,
    _bucket (mkNode (Bucket (unnamed arg_op) (first :: rest) closed
                       close_extreme include_under include_over) (Some nm)) = Ok r /\
    node_name r = None.
Proof.
  destruct (bucket_result (unnamed arg_op) first rest closed close_extreme
              include_under include_over (Some nm))
    as (r & cases & results & Hr & Hname & _).
  by exists r.
Qed.

(** * Further properties *)

(** ** Context chains *)

Section chains.
Implicit Types (s : Store) (c d p a : nat) (n : Node).

Lemma top_context_of_chain_member s c a :
  wf s -> a ∈ _contexts s c true -> top_context s a = top_context s c.
Proof.
  intros Hwf. induction (lt_wf c) as [c _ IH].
  rewrite (contexts_unfold s c Hwf). intros [->|Ha]%elem_of_cons; [done|].
  rewrite (top_context_unfold s c Hwf).
  destruct (parent (s !!! c)) as [p|] eqn:Hp; [|by apply elem_of_nil in Ha].
  apply IH; [by apply Hwf|done].
Qed.

(** The chain and the top context of an existing context are not changed by
    the creation of a subcontext. *)
Lemma subcontext_keeps_chains s c d :
  wf s -> c < length s -> d < length s ->
  _contexts (subcontext s c).1 d true = _contexts s d true /\
  top_context (subcontext s c).1 d = top_context s d.
Proof.
  intros Hwf Hc. assert (Hwf' := wf_subcontext s c Hwf Hc).
  assert (Hlook := subcontext_lookup_old s c).
  remember (subcontext s c).1 as s' eqn:Hs'. clear Hs'.
  induction (lt_wf d) as [d _ IH]. intros Hd.
  rewrite (contexts_unfold s' d Hwf'), (contexts_unfold s d Hwf).
  rewrite (top_context_unfold s' d Hwf'), (top_context_unfold s d Hwf).
  rewrite Hlook by done.
  destruct (parent (s !!! d)) as [p|] eqn:Hp; [|done].
  apply Hwf in Hp. destruct (IH p Hp) as [-> ->]; [lia|done].
Qed.
End chains.

(** X1: in a context tree, every context on the chain from a context up to
    the root has the same top context as that context; in particular the
    top context is its own top context, and it has no parent. *)
Theorem top_context_shared_along_chain (s : Store) (c a : nat) :
  wf s -> a ∈ _contexts s c true ->
  top_context s a = top_context s c /\
  top_context s (top_context s c) = top_context s c /\
  parent (s !!! top_context s c) = None.
Proof.
  intros Hwf Ha. split; [by apply top_context_of_chain_member|]. split.
  - apply top_context_of_chain_member; [done|]. by apply top_context_in_contexts.
  - by apply top_context_root.
Qed.

Lemma top_context_shared_along_chain_witness :
  top_context root_and_child 0 = top_context root_and_child 1.
Proof.
  assert (Hwf : wf root_and_child).
  { apply wf_subcontext; [apply wf_root_store|simpl; lia]. }
  assert (Ha : 0 ∈ _contexts root_and_child 1 true).
  { vm_compute. right. left. }
  exact (proj1 (top_context_shared_along_chain root_and_child 1 0 Hwf Ha)).
Defined.

(** X2: [subcontext] allocates a new context directly below [self]: its
    chain is itself followed by the chain of [self], its top context is that
    of [self], it starts with no alias, no extraction mark and no memo, with
    the parameter mapping and indent of [self] and with [always_alias]
    unset; every existing context is left as it was. *)
Theorem subcontext_extends_chain (s : Store) (self : nat) :
  wf s -> self < length s ->
  let s' := (subcontext s self).1 in
  let new := (subcontext s self).2 in
  new = length s /\ length s' = S (length s) /\
  _contexts s' new true = new :: _contexts s self true /\
  top_context s' new = top_context s self /\
  table_refs (s' !!! new) = ∅ /\
  extracted_subexprs (s' !!! new) = ∅ /\
  subquery_memo (s' !!! new) = ∅ /\
  params (s' !!! new) = params (s !!! self) /\
  indent (s' !!! new) = indent (s !!! self) /\
  always_alias (s' !!! new) = false /\
  (forall d, d < length s -> s' !!! d = s !!! d).
Proof.
  intros Hwf Hself s' new.
  assert (Hwf' : wf s') by (by apply wf_subcontext).
  assert (Hnew : s' !!! new =
            QueryContext_init (indent (s !!! self)) (Some self) (Some (params (s !!! self)))).
  { apply subcontext_lookup_new. }
  destruct (subcontext_keeps_chains s self self Hwf Hself Hself) as [Hch Htop].
  fold s' in Hch, Htop.
  split; [done|]. split; [unfold s'; simpl; rewrite length_app; simpl; lia|].
  split.
  { rewrite (contexts_unfold s' new Hwf'), Hnew.
    cbn [parent QueryContext_init]. by rewrite Hch. }
  split.
  { rewrite (top_context_unfold s' new Hwf'), Hnew.
    cbn [parent QueryContext_init]. exact Htop. }
  rewrite Hnew. repeat (split; [done|]).
  intros d Hd. by apply subcontext_lookup_old.
Qed.

Lemma subcontext_extends_chain_witness :
  _contexts (subcontext root_and_child 1).1 2 true = [2; 1; 0].
Proof.
  assert (Hwf : wf root_and_child).
  { apply wf_subcontext; [apply wf_root_store|simpl; lia]. }
  assert (H1 : 1 < length root_and_child) by (simpl; lia).
  destruct (subcontext_extends_chain root_and_child 1 Hwf H1) as (_ & _ & Hch & _).
  exact Hch.
Defined.

(** ** Aliases and references *)

Section references.
Implicit Types (s : Store) (c d p a : nat) (n m : Node).

(** The loop of [make_alias] stops at the first ancestor that knows the
    node. *)
Lemma set_ref_lookup_eq s c n alias :
  c < length s ->
  table_refs (set_ref s c n alias !!! c) = <[n := alias]> (table_refs (s !!! c)).
Proof. intros Hc. unfold set_ref. by rewrite list_lookup_total_alter_eq. Qed.

Lemma set_ref_lookup_ne s c n alias d :
  d <> c -> set_ref s c n alias !!! d = s !!! d.
Proof. intros. unfold set_ref. by rewrite list_lookup_total_alter_ne. Qed.

Lemma set_ref_extracted s c n alias d :
  extracted_subexprs (set_ref s c n alias !!! d) = extracted_subexprs (s !!! d).
Proof.
  destruct (decide (d = c)) as [->|Hne]; [|by rewrite set_ref_lookup_ne].
  destruct (decide (c < length s)) as [Hc|Hc].
  - unfold set_ref. by rewrite list_lookup_total_alter_eq.
  - unfold set_ref. rewrite !lookup_total_out_of_range; [done|lia|].
    rewrite length_alter. lia.
Qed.

Lemma set_ref_table_other s c n alias d m :
  m <> n -> table_refs (set_ref s c n alias !!! d) !! m = table_refs (s !!! d) !! m.
Proof.
  intros Hm. destruct (decide (d = c)) as [->|Hne]; [|by rewrite set_ref_lookup_ne].
  destruct (decide (c < length s)) as [Hc|Hc].
  - rewrite set_ref_lookup_eq by done. by rewrite lookup_insert_ne.
  - unfold set_ref. rewrite !lookup_total_out_of_range; [done|lia|].
    rewrite length_alter. lia.
Qed.

Lemma is_extracted_set_ref s c n alias d m :
  is_extracted (set_ref s c n alias) d m = is_extracted s d m.
Proof.
  unfold is_extracted. by rewrite set_ref_top_context, set_ref_extracted.
Qed.
End references.

(** X3: when the node already has an alias in some ancestor, [make_alias]
    copies into the calling context the alias of the nearest such ancestor
    (no new [t<i>] is made up) and leaves every other context as it was. *)
Theorem make_alias_reuses_nearest_ancestor (s : Store) (c p : nat) (n : Node)
    (before after : list nat) (alias : string) :
  wf s -> c < length s ->
  drop 1 (_contexts s c true) = before ++ p :: after ->
  (forall a, a ∈ before -> table_refs (s !!! a) !! n = None) ->
  table_refs (s !!! p) !! n = Some alias ->
  table_refs (make_alias s c n !!! c) !! n = Some alias /\
  (forall d, d <> c -> make_alias s c n !!! d = s !!! d) /\
  (forall m, m <> n ->
     table_refs (make_alias s c n !!! c) !! m = table_refs (s !!! c) !! m).
Proof.
  intros Hwf Hc Hchain Hbefore Hp.
  rewrite (make_alias_table s c n Hc), Hchain.
  rewrite (make_alias_loop_first s n _ before p after alias Hbefore Hp).
  split; [apply lookup_insert_eq|]. split.
  - intros d Hd. by apply make_alias_lookup_ne.
  - intros m Hm. by rewrite lookup_insert_ne.
Qed.

Lemma make_alias_reuses_nearest_ancestor_witness :
  table_refs (make_alias (make_alias root_and_child 0 table_a) 1 table_a !!! 1) !! table_a
  = Some "t0".
Proof.
  assert (Hwf : wf (make_alias root_and_child 0 table_a)).
  { apply wf_make_alias, wf_subcontext; [apply wf_root_store|simpl; lia]. }
  assert (Hc : 1 < length (make_alias root_and_child 0 table_a)).
  { rewrite length_make_alias. simpl. lia. }
  refine (proj1 (make_alias_reuses_nearest_ancestor
                   (make_alias root_and_child 0 table_a) 1 0 table_a [] [] "t0"
                   Hwf Hc _ _ _)).
  - vm_compute. reflexivity.
  - intros a Ha. by apply elem_of_nil in Ha.
  - vm_compute. reflexivity.
Defined.

(** X4: [set_ref] then [get_ref]: on the top context, or for a node that is
    not marked extracted, [get_ref] returns the alias just set; and
    [set_ref] on one node changes the answer of [get_ref] for no other node,
    in any context. *)
Theorem get_ref_after_set_ref (s : Store) (c : nat) (n : Node) (alias : string) :
  c < length s ->
  (is_extracted s c n = false \/ top_context s c = c) ->
  get_ref (set_ref s c n alias) c n = Ok (Some alias) /\
  (forall d m, m <> n -> get_ref (set_ref s c n alias) d m = get_ref s d m).
Proof.
  intros Hc Hcase. split.
  - unfold get_ref. rewrite is_extracted_set_ref, set_ref_top_context.
    destruct Hcase as [->| ->].
    + by rewrite set_ref_lookup_eq, lookup_insert_eq.
    + rewrite set_ref_lookup_eq, lookup_insert_eq by done. by destruct (is_extracted _ _ _).
  - intros d m Hm. unfold get_ref.
    rewrite is_extracted_set_ref, set_ref_top_context.
    by rewrite !set_ref_table_other.
Qed.

Lemma get_ref_after_set_ref_witness :
  get_ref (set_ref root_and_child 1 table_a "x") 1 table_a = Ok (Some "x").
Proof.
  refine (proj1 (get_ref_after_set_ref root_and_child 1 table_a "x" _ _)).
  - simpl. lia.
  - left. vm_compute. reflexivity.
Defined.

(** X5: after [make_alias(node)] on a context, [has_ref(node)] holds on that
    context, and [has_ref(node, parent_contexts=True)] holds on every
    context below it; a reference found without the ancestors is found
    with them. *)
Theorem has_ref_after_make_alias (s : Store) (c : nat) (n : Node) :
  wf s -> c < length s ->
  has_ref (make_alias s c n) c n false = true /\
  (forall d, c ∈ _contexts s d true -> has_ref (make_alias s c n) d n true = true) /\
  (forall d m, has_ref s d m false = true -> has_ref s d m true = true).
Proof.
  intros Hwf Hc.
  assert (Hsome : is_Some (table_refs (make_alias s c n !!! c) !! n)).
  { rewrite make_alias_table by done. rewrite lookup_insert_eq. by eexists. }
  split; [|split].
  - unfold has_ref, _contexts. simpl. by rewrite bool_decide_eq_true_2.
  - intros d Hd. unfold has_ref. rewrite make_alias_contexts.
    apply existsb_exists. exists c. split; [by apply list_elem_of_In|].
    by apply bool_decide_eq_true.
  - intros d m. unfold has_ref at 1. unfold _contexts. simpl.
    rewrite orb_false_r. intros Hm%bool_decide_eq_true.
    apply has_ref_true. by left.
Qed.

Lemma has_ref_after_make_alias_witness :
  has_ref (make_alias root_and_child 0 table_a) 1 table_a true = true.
Proof.
  assert (Hwf : wf root_and_child).
  { apply wf_subcontext; [apply wf_root_store|simpl; lia]. }
  assert (H0 : 0 < length root_and_child) by (simpl; lia).
  destruct (has_ref_after_make_alias root_and_child 0 table_a Hwf H0) as (_ & Hd & _).
  apply Hd. vm_compute. right. left.
Defined.

(** ** Alias qualification, correlation and extraction *)

Section qualification.
Implicit Types (s : Store) (c d : nat) (n : Node).

Lemma map_size_two_keys (m : gmap Node string) (k1 k2 : Node) :
  k1 <> k2 -> is_Some (m !! k1) -> is_Some (m !! k2) -> 2 <= size m.
Proof.
  intros Hne H1 H2.
  assert (Hd := map_size_delete_Some k1 m H1).
  assert (size (delete k1 m) <> 0).
  { apply (map_size_ne_0_lookup_2 _ k2). by rewrite lookup_delete_ne. }
  lia.
Qed.

Lemma set_query_table_refs s c q d :
  table_refs (set_query s c q !!! d) = table_refs (s !!! d).
Proof.
  unfold set_query. destruct (decide (d = c)) as [->|Hne];
    [|by rewrite list_lookup_total_alter_ne].
  destruct (decide (c < length s)) as [Hc|Hc].
  - by rewrite list_lookup_total_alter_eq.
  - rewrite !lookup_total_out_of_range; [done|lia|]. rewrite length_alter. lia.
Qed.

Lemma has_ref_set_query s c q d n b :
  has_ref (set_query s c q) d n b = has_ref s d n b.
Proof.
  unfold has_ref.
  assert (Hctx : _contexts (set_query s c q) d b = _contexts s d b).
  { unfold _contexts. destruct b; [|done].
    apply contexts_from_ext. intros. unfold set_query. by apply parent_alter. }
  rewrite Hctx. clear Hctx. induction (_contexts s d b) as [|a l IH]; [done|].
  cbn [existsb]. by rewrite set_query_table_refs, IH.
Qed.
End qualification.

(** X6: [need_aliases] answers true once [set_always_alias] was called on
    the context, and once two different nodes were given aliases in it; a
    freshly made subcontext answers false, even below a context that was set
    to always alias. *)
Theorem need_aliases_cases (s : Store) (c : nat) (n1 n2 : Node) :
  c < length s -> n1 <> n2 ->
  need_aliases (set_always_alias s c) c = true /\
  need_aliases (make_alias (make_alias s c n1) c n2) c = true /\
  need_aliases (subcontext (set_always_alias s c) c).1
               (subcontext (set_always_alias s c) c).2 = false.
Proof.
  intros Hc Hne. split; [|split].
  - unfold need_aliases, set_always_alias.
    by rewrite list_lookup_total_alter_eq.
  - unfold need_aliases. apply orb_true_iff. right. apply bool_decide_eq_true.
    assert (Hc1 : c < length (make_alias s c n1)) by (by rewrite length_make_alias).
    rewrite (make_alias_table _ c n2 Hc1), (make_alias_table s c n1 Hc).
    apply (map_size_two_keys _ n1 n2 Hne).
    + rewrite lookup_insert_ne, lookup_insert_eq by done. by eexists.
    + rewrite lookup_insert_eq. by eexists.
  - unfold need_aliases.
    assert (Hnew := subcontext_lookup_new (set_always_alias s c) c).
    change (subcontext (set_always_alias s c) c).2 with (length (set_always_alias s c)).
    by rewrite Hnew.
Qed.

Lemma need_aliases_cases_witness :
  need_aliases (make_alias (make_alias (root_store 2 None) 0 table_a) 0 table_b) 0 = true.
Proof.
  refine (proj1 (proj2 (need_aliases_cases (root_store 2 None) 0 table_a table_b _ _))).
  - simpl. lia.
  - apply (bool_decide_unpack _). vm_compute. exact I.
Defined.

(** X7: [is_foreign_expr] answers false for a node that has an alias in the
    context or in any of its ancestors, without looking at the query (which
    may still be unset); for a node with no visible alias it fails with
    [AttributeError] while no query was set, and after [set_query] it
    answers the negation of [shares_all_roots] on the query's table set
    followed by its select set. *)
Theorem is_foreign_expr_cases (shares_all_roots : Node -> list Node -> bool)
    (s : Store) (c : nat) (op : Node) :
  c < length s ->
  (forall a, a ∈ _contexts s c true -> is_Some (table_refs (s !!! a) !! op) ->
     is_foreign_expr shares_all_roots s c op = Ok false) /\
  (has_ref s c op true = false -> query (s !!! c) = None ->
     is_foreign_expr shares_all_roots s c op = Raise AttributeError) /\
  (has_ref s c op true = false -> forall q,
     is_foreign_expr shares_all_roots (set_query s c q) c op =
       Ok (negb (shares_all_roots op (table_set q :: select_set q)))).
Proof.
  intros Hc. split; [|split].
  - intros a Ha Hsome. unfold is_foreign_expr.
    assert (Href : has_ref s c op true = true).
    { unfold has_ref. apply existsb_exists. exists a.
      split; [by apply list_elem_of_In|by apply bool_decide_eq_true]. }
    by rewrite Href.
  - intros Href Hq. unfold is_foreign_expr. by rewrite Href, Hq.
  - intros Href q. unfold is_foreign_expr.
    rewrite has_ref_set_query, Href. unfold set_query.
    by rewrite list_lookup_total_alter_eq.
Qed.

Lemma is_foreign_expr_cases_witness :
  is_foreign_expr (fun _ _ => false) (make_alias root_and_child 0 table_a) 1 table_a
  = Ok false.
Proof.
  assert (Hc : 1 < length (make_alias root_and_child 0 table_a)).
  { rewrite length_make_alias. simpl. lia. }
  destruct (is_foreign_expr_cases (fun _ _ => false)
              (make_alias root_and_child 0 table_a) 1 table_a Hc) as (Hvis & _ & _).
  apply (Hvis 0).
  - vm_compute. right. left.
  - exists "t0". vm_compute. reflexivity.
Defined.

(** X8: [set_extracted] on a context without parent gives the node the
    alias [t<k>], [k] being the number of aliases that context held, and
    from then on every context whose top context it is sees the node as
    extracted and gets that alias from [get_ref], whatever its own alias
    table says. *)
Theorem get_ref_after_set_extracted_on_top (s : Store) (top : nat) (n : Node) :
  wf s -> top < length s -> parent (s !!! top) = None ->
  let s' := set_extracted s top n in
  let alias := "t" +:+ pretty (size (table_refs (s !!! top))) in
  table_refs (s' !!! top) !! n = Some alias /\
  (forall d, top_context s d = top ->
     is_extracted s' d n = true /\ get_ref s' d n = Ok (Some alias)).
Proof.
  intros Hwf Htop Hpar s' alias.
  assert (Halias : table_refs (s' !!! top) !! n = Some alias).
  { unfold s', set_extracted.
    set (s1 := alter (with_extracted_subexprs (fun e => {[ n ]} ∪ e)) top s).
    assert (Hwf1 : wf s1) by (by apply wf_alter).
    assert (Hlen1 : top < length s1) by (unfold s1; by rewrite length_alter).
    assert (Hs1 : s1 !!! top = with_extracted_subexprs (fun e => {[ n ]} ∪ e) (s !!! top)).
    { unfold s1. by rewrite list_lookup_total_alter_eq. }
    rewrite (make_alias_table s1 top n Hlen1).
    rewrite (contexts_unfold s1 top Hwf1), Hs1. cbn [parent with_extracted_subexprs].
    rewrite Hpar. cbn [drop make_alias_loop table_refs].
    by rewrite lookup_insert_eq. }
  split; [exact Halias|].
  intros d Hd.
  assert (Hext : is_extracted s' d n = true) by (by apply set_extracted_on_top).
  split; [exact Hext|].
  unfold get_ref. rewrite Hext. unfold s' at 1.
  rewrite set_extracted_top_context, Hd. by rewrite Halias.
Qed.

Lemma get_ref_after_set_extracted_on_top_witness :
  get_ref (set_extracted root_and_child 0 table_a) 1 table_a = Ok (Some "t0").
Proof.
  assert (Hwf : wf root_and_child).
  { apply wf_subcontext; [apply wf_root_store|simpl; lia]. }
  assert (H0 : 0 < length root_and_child) by (simpl; lia).
  destruct (get_ref_after_set_extracted_on_top root_and_child 0 table_a Hwf H0 eq_refl)
    as [_ Hd].
  destruct (Hd 1) as [_ Hget]; [vm_compute; reflexivity|].
  exact Hget.
Defined.

(** ** Bookkeeping, the memo and the extraction marks *)

(** X9: nothing that [subcontext], [make_alias], [set_ref], [set_extracted],
    [set_always_alias] and [set_query] do, in any order and on any contexts
    of the tree, removes a memoised text or an extraction mark: a text that
    [get_compiled_expr] would return from the memo is still returned
    afterwards, without compiling, and a node seen as extracted stays so. *)
Theorem bookkeeping_keeps_memo_and_marks (s : Store) (ops : list ContextOp) (c : nat) :
  wf s -> ops_valid s ops -> c < length s ->
  let s' := foldl apply_op s ops in
  (forall n text,
     subquery_memo (s !!! top_context s c) !! n = Some text ->
     forall to_sql, get_compiled_expr to_sql c n s' = (Ok text, s', [])) /\
  (forall n, is_extracted s c n = true -> is_extracted s' c n = true).
Proof.
  intros Hwf Hval Hc s'.
  destruct (keeps_run ops s Hwf Hval) as [Hwf' Hk]. fold s' in Hwf', Hk.
  assert (Htop := keeps_top_context s s' c Hwf Hwf' Hk Hc).
  assert (Hlt := top_context_lt_length s c Hwf Hc).
  destruct Hk as [_ Hk]. destruct (Hk _ Hlt) as (_ & Hmemo & Hext).
  split.
  - intros n text Hn to_sql. apply get_compiled_expr_hit.
    by rewrite Htop, Hmemo.
  - intros n Hn. unfold is_extracted in *. rewrite Htop.
    apply bool_decide_eq_true. apply bool_decide_eq_true in Hn. by apply Hext.
Qed.

Lemma bookkeeping_keeps_memo_and_marks_witness :
  is_extracted
    (foldl apply_op (set_extracted (root_store 2 None) 0 table_a)
       [OpSubcontext 0; OpMakeAlias 1 table_b; OpSetExtracted 1 table_b]) 0 table_a
  = true.
Proof.
  assert (Hwf : wf (set_extracted (root_store 2 None) 0 table_a)).
  { apply wf_set_extracted, wf_root_store. }
  assert (Hlen : length (set_extracted (root_store 2 None) 0 table_a) = 1).
  { unfold set_extracted. rewrite length_make_alias, length_alter. done. }
  assert (Hval : ops_valid (set_extracted (root_store 2 None) 0 table_a)
                   [OpSubcontext 0; OpMakeAlias 1 table_b; OpSetExtracted 1 table_b]).
  { cbn [ops_valid op_self apply_op].
    rewrite length_make_alias, length_subcontext, Hlen. repeat split; lia. }
  assert (Hc : 0 < length (set_extracted (root_store 2 None) 0 table_a)).
  { rewrite Hlen. lia. }
  destruct (bookkeeping_keeps_memo_and_marks _ _ 0 Hwf Hval Hc) as [_ Hext].
  apply Hext. vm_compute. reflexivity.
Defined.

(** ** Dispatch in the translator *)

Section rewrite_facts.
Variable output_dtype : Node -> DataType.

(** What [_bucket] returns is a searched CASE, also without edges. *)
Lemma bucket_result_type (op r : Node) : _bucket op = Ok r -> type_of r = T_SearchedCase.
Proof.
  destruct op as [[] nm]; try discriminate.
  destruct buckets as [|first rest].
  - unfold _bucket. cbn [node_op]. destruct closed, include_under; try discriminate;
      cbn [mbind result_bind enumerate zip zip_with drop imap foldl last];
      destruct include_over; try discriminate;
      cbn [mbind result_bind]; intros [= <-];
      unfold case_end, has_name, get_name, type_of;
      destruct (node_name arg); reflexivity.
  - destruct (bucket_result arg first rest closed close_extreme include_under
                include_over nm) as (r' & cs & rs & -> & _ & Hop).
    intros [= <-]. unfold type_of. by rewrite Hop.
Qed.

Lemma category_label_result_type (op r : Node) :
  _category_label op = Ok r -> type_of r = T_SimpleCase.
Proof.
  destruct op as [[] nm]; try discriminate.
  destruct (category_label_result arg labels nulls nm) as (r' & cs & rs & -> & _ & Hop).
  intros [= <-]. unfold type_of. by rewrite Hop.
Qed.

(** The rewrite step never yields a node that it would rewrite into
    something else. *)
Lemma rewrite_step_fixed (op op' : Node) :
  rewrite_step output_dtype op = Ok op' -> rewrite_step output_dtype op' = Ok op'.
Proof.
  unfold rewrite_step at 1.
  destruct (_rewrites output_dtype (type_of op)) as [rw|] eqn:Hrw;
    [|by intros [= <-]; unfold rewrite_step; rewrite Hrw].
  destruct op as [o nm]. unfold type_of in Hrw. cbn [node_op] in Hrw.
  destruct o; cbn [_rewrites] in Hrw; try discriminate; injection Hrw as <-.
  - intros H%bucket_result_type. unfold rewrite_step. by rewrite H.
  - intros H%category_label_result_type. unfold rewrite_step. by rewrite H.
  - by intros [= <-].
  - by intros [= <-].
  - by intros [= <-].
  - by intros [= <-].
  - unfold _rewrite_cast. cbn [node_op].
    destruct to; try (by intros [= <-]).
    destruct (output_dtype arg) eqn:Hdt; intros [= <-]; try reflexivity;
      unfold rewrite_step, _rewrite_cast; cbn; by rewrite ?Hdt.
  - by intros [= <-].
Qed.

Lemma table_node_not_rewritten (op : Node) :
  is_TableNode op = true ->
  rewrite_step output_dtype op = Ok op /\ is_ScalarParameter op = false.
Proof.
  destruct op as [o nm]. unfold is_TableNode, rewrite_step, is_ScalarParameter, type_of.
  cbn [node_op]. destruct o; try discriminate; intros _; split; reflexivity.
Qed.
End rewrite_facts.

Section dispatch.
Variable output_dtype : Node -> DataType.
Variable _registry : NodeType -> option Formatter.
Variable type_repr : NodeType -> string.
Variable ibis_literal ibis_struct ibis_map : PyValue -> DataType -> result Node.
Variable quote_identifier : string -> bool -> string.
Variable has_name_attribute : NodeType -> bool.

Local Abbreviation translate' :=
  (translate output_dtype _registry type_repr ibis_literal ibis_struct ibis_map).
Local Abbreviation get_result' :=
  (get_result output_dtype _registry type_repr ibis_literal ibis_struct ibis_map
     quote_identifier has_name_attribute).

(** Translating a node is translating what the rewrite step makes of it. *)
Lemma translate_of_rewritten (depth context : nat) (op op' : Node) (s : Store) :
  rewrite_step output_dtype op = Ok op' ->
  translate' depth context op s = translate' depth context op' s.
Proof.
  intros Hrw. assert (Hfix := rewrite_step_fixed output_dtype op op' Hrw).
  destruct depth; simpl; unfold M_bind, M_lift; by rewrite Hrw, Hfix.
Qed.

Lemma translate_rewrite_failure (depth context : nat) (op : Node) (e : exn) (s : Store) :
  rewrite_step output_dtype op = Raise e ->
  translate' depth context op s = (Raise e, s).
Proof.
  intros Hrw. destruct depth; simpl; unfold M_bind, M_lift; by rewrite Hrw.
Qed.

(** X10: a table node translates to the wildcard [*], at any depth and
    without touching the store, whether or not the registry has a formatter
    for its class. *)
Theorem translate_table_node (depth context : nat) (op : Node) (s : Store) :
  is_TableNode op = true ->
  translate' depth context op s = (Ok "*", s).
Proof.
  intros Ht. destruct (table_node_not_rewritten output_dtype op Ht) as [Hrw Hp].
  destruct depth; simpl; unfold M_bind, M_lift; by rewrite Hrw, Hp, Ht.
Qed.

(** X11: rewriting is done once and is enough: the node that the rewrite step
    yields is left alone by a second rewrite step, so translating a node
    gives exactly the outcome of translating its rewritten form; and when
    the rewrite itself fails, that failure is the outcome, the registry not
    being consulted. *)
Theorem translate_rewrites_once (depth context : nat) (op : Node) (s : Store) :
  (forall op', rewrite_step output_dtype op = Ok op' ->
     rewrite_step output_dtype op' = Ok op' /\
     translate' depth context op s = translate' depth context op' s) /\
  (forall e, rewrite_step output_dtype op = Raise e ->
     translate' depth context op s = (Raise e, s)).
Proof.
  split.
  - intros op' Hrw. split;
      [exact (rewrite_step_fixed output_dtype op op' Hrw)
      |exact (translate_of_rewritten depth context op op' s Hrw)].
  - intros e. apply translate_rewrite_failure.
Qed.

(** X12: the lowerings.  [Any] translates as [Max], [All] as [Min],
    [NotAny] and [NotAll] as the comparison of [Max] and [Min] with the
    literal 0 of the argument's type, [StringContains] as
    [StringFind(haystack, needle) >= 0], and a cast of an integer to an
    interval as the interval construction of the target's unit; the
    lowered node carries no display name. *)
Theorem translate_lowerings (depth context : nat) (arg needle : Node)
    (nm : option string) (s : Store) :
  let zero := unnamed (Literal (SInt 0) (Some (output_dtype arg))) in
  translate' depth context (mkNode (Any arg) nm) s =
    translate' depth context (unnamed (Max arg None)) s /\
  translate' depth context (mkNode (All arg) nm) s =
    translate' depth context (unnamed (Min arg None)) s /\
  translate' depth context (mkNode (NotAny arg) nm) s =
    translate' depth context (unnamed (Equals (unnamed (Max arg None)) zero)) s /\
  translate' depth context (mkNode (NotAll arg) nm) s =
    translate' depth context (unnamed (Equals (unnamed (Min arg None)) zero)) s /\
  translate' depth context (mkNode (StringContains arg needle) nm) s =
    translate' depth context
      (unnamed (GreaterEqual (unnamed (StringFind arg needle None None)) (py_int 0))) s /\
  (forall unit nbits signed, output_dtype arg = dt_Integer nbits signed ->
     translate' depth context (mkNode (Cast arg (dt_Interval unit)) nm) s =
       translate' depth context (unnamed (IntervalFromInteger arg unit)) s).
Proof.
  intros zero. repeat split; try (by apply translate_of_rewritten).
  intros unit nbits signed Hdt. apply translate_of_rewritten.
  unfold rewrite_step, type_of, _rewrite_cast. cbn. by rewrite Hdt.
Qed.

(** X13: a scalar parameter that is bound translates as the literal built
    from its value and its type, by [ibis.struct] for a struct type,
    [ibis.map] for a map type and [ibis.literal] otherwise, one level of
    recursion down; when the constructor refuses the value, its error is
    the outcome of [translate]. *)
Theorem translate_bound_parameter (depth context : nat) (op : Node)
    (raw : PyValue) (s : Store) :
  is_ScalarParameter op = true ->
  params (s !!! context) !! op = Some raw ->
  let dtype := output_dtype op in
  let literal :=
    match dtype with
    | dt_Struct _ => ibis_struct raw dtype
    | dt_Map _ => ibis_map raw dtype
    | _ => ibis_literal raw dtype
    end in
  (forall l, literal = Ok l ->
     translate' (S depth) context op s = translate' depth context l s) /\
  (forall e, literal = Raise e ->
     translate' depth context op s = (Raise e, s)).
Proof.
  intros Hop Hparams dtype literal.
  assert (Hrw : rewrite_step output_dtype op = Ok op).
  { apply bool_decide_eq_true in Hop. unfold rewrite_step. by rewrite Hop. }
  split.
  - intros l Hl. cbn [translate]. unfold M_bind, M_lift.
    rewrite Hrw, Hop. unfold _trans_param. rewrite Hparams.
    fold dtype. fold literal. by rewrite Hl.
  - intros e He. destruct depth; cbn [translate]; unfold M_bind, M_lift;
      rewrite Hrw, Hop; unfold _trans_param; rewrite Hparams;
      fold dtype; fold literal; by rewrite He.
Qed.

(** X14: [get_result] returns the failure of [translate] unchanged.  On
    success it returns the translated text as it is when the translator is
    not in named mode or the node is a column reference, neither of which
    reads the node's [name]; otherwise it reads [name]: on a node whose
    class has no such attribute (a table node such as a selection) it
    fails with [AttributeError], on a node without display name it returns
    the text as it is, and on a node with one the text followed by [AS] and
    the quoted display name. *)
Theorem get_result_naming (depth : nat) (self : ExprTranslator) (s s' : Store) :
  (forall e, translate' depth (tr_context self) (tr_node self) s = (Raise e, s') ->
     get_result' depth self s = (Raise e, s')) /\
  (forall text, translate' depth (tr_context self) (tr_node self) s = (Ok text, s') ->
     get_result' depth self s =
       if negb (tr_named self) || bool_decide (type_of (tr_node self) = T_TableColumn)
       then (Ok text, s')
       else if has_name_attribute (type_of (tr_node self))
            then (Ok (match node_name (tr_node self) with
                      | Some nm => text +:+ " AS " +:+ quote_identifier nm true
                      | None => text
                      end), s')
            else (Raise AttributeError, s')).
Proof.
  split.
  - intros e He. unfold get_result, M_bind. by rewrite He.
  - intros text Ht. unfold get_result, M_bind. rewrite Ht.
    unfold _needs_name, op_name, name, M_lift, M_ret.
    destruct (tr_named self), (bool_decide (type_of (tr_node self) = T_TableColumn)),
      (has_name_attribute (type_of (tr_node self))),
      (node_name (tr_node self)); reflexivity.
Qed.
End dispatch.

(** A root context whose parameter mapping binds [param_0] to 7. *)
Definition bound_store : Store :=
  root_store 2 (Some {[ param_0 := PyScalar (SInt 7) ]}).

Lemma translate_table_node_witness :
  translate example_output_dtype literal_registry example_type_repr
    example_literal example_literal example_literal 3 0 table_a (root_store 2 None)
  = (Ok "*", root_store 2 None).
Proof. apply translate_table_node. reflexivity. Defined.

Lemma translate_rewrites_once_witness :
  translate example_output_dtype literal_registry example_type_repr
    example_literal example_literal example_literal 3 0
    (mkNode (Any column_v) (Some "any_v")) (root_store 2 None)
  = translate example_output_dtype literal_registry example_type_repr
      example_literal example_literal example_literal 3 0
      (unnamed (Max column_v None)) (root_store 2 None).
Proof.
  refine (proj2 (proj1 (translate_rewrites_once example_output_dtype literal_registry
                          example_type_repr example_literal example_literal
                          example_literal 3 0 (mkNode (Any column_v) (Some "any_v"))
                          (root_store 2 None)) _ _)).
  reflexivity.
Defined.

Lemma translate_bound_parameter_witness :
  translate example_output_dtype literal_registry example_type_repr
    example_literal example_literal example_literal 4 0 param_0 bound_store
  = translate example_output_dtype literal_registry example_type_repr
      example_literal example_literal example_literal 3 0
      (unnamed (Literal (SInt 7) (Some (dt_Integer 64 true)))) bound_store.
Proof.
  refine (proj1 (translate_bound_parameter example_output_dtype literal_registry
                   example_type_repr example_literal example_literal example_literal
                   3 0 param_0 (PyScalar (SInt 7)) bound_store _ _) _ _).
  - reflexivity.
  - vm_compute. reflexivity.
  - reflexivity.
Defined.

(** The classes with a [name] attribute, for the examples: all but the
    selection. *)
Definition example_has_name_attribute : NodeType -> bool :=
  fun t => negb (bool_decide (t = T_Other "Selection" true)).

Lemma get_result_naming_witness :
  get_result example_output_dtype literal_registry example_type_repr
    example_literal example_literal example_literal (fun nm _ => nm)
    example_has_name_attribute 3
    {| tr_node := mkNode (Literal (SInt 0) None) (Some "zero"); tr_context := 0;
       tr_named := true; tr_permit_subquery := false |} (root_store 2 None)
  = (Ok "0 AS zero", root_store 2 None) /\
  get_result example_output_dtype literal_registry example_type_repr
    example_literal example_literal example_literal (fun nm _ => nm)
    example_has_name_attribute 3
    {| tr_node := unnamed (Other "Selection" true [table_a]); tr_context := 0;
       tr_named := true; tr_permit_subquery := false |} (root_store 2 None)
  = (Raise AttributeError, root_store 2 None) /\
  get_result example_output_dtype literal_registry example_type_repr
    example_literal example_literal example_literal (fun nm _ => nm)
    example_has_name_attribute 3
    {| tr_node := unnamed (Other "Selection" true [table_a]); tr_context := 0;
       tr_named := false; tr_permit_subquery := false |} (root_store 2 None)
  = (Ok "*", root_store 2 None).
Proof.
  split_and!.
  - refine (proj2 (get_result_naming example_output_dtype literal_registry
                     example_type_repr example_literal example_literal example_literal
                     (fun nm _ => nm) example_has_name_attribute 3 _
                     (root_store 2 None) (root_store 2 None)) "0" _).
    reflexivity.
  - refine (proj2 (get_result_naming example_output_dtype literal_registry
                     example_type_repr example_literal example_literal example_literal
                     (fun nm _ => nm) example_has_name_attribute 3 _
                     (root_store 2 None) (root_store 2 None)) "*" _).
    reflexivity.
  - refine (proj2 (get_result_naming example_output_dtype literal_registry
                     example_type_repr example_literal example_literal example_literal
                     (fun nm _ => nm) example_has_name_attribute 3 _
                     (root_store 2 None) (root_store 2 None)) "*" _).
    reflexivity.
Defined.

(** ** The branches of the bucket rewrite *)

(** The number that a flag adds to a count of branches. *)
Definition flag (b : bool) : nat := if b then 1 else 0.

(** The bucket indices [0], [1], ..., [k - 1] as result literals. *)
Definition bucket_ids (k : nat) : list Node :=
  (fun i => py_int (Z.of_nat i)) <$> seq 0 k.

Section bucket_counting.
Implicit Types (arg first : Node) (rest : list Node) (stmt : CaseBuilder).

(** The loop of [_bucket] gives its branches consecutive indices. *)
Lemma bucket_loop_ids arg closed ce unb (l_cmp r_cmp : Cmp) items stmt (id : Z) :
  let out := foldl (bucket_step arg closed ce unb l_cmp r_cmp) (stmt, id) items in
  cb_results out.1 =
    cb_results stmt ++ ((fun i => py_int (id + Z.of_nat i)) <$> seq 0 (length items)) /\
  length (cb_cases out.1) = length (cb_cases stmt) + length items /\
  out.2 = (id + Z.of_nat (length items))%Z.
Proof.
  revert stmt id. induction items as [|[j [lower upper]] items IH]; intros stmt id.
  - cbn. rewrite app_nil_r, Z.add_0_r. by rewrite Nat.add_0_r.
  - cbn zeta. cbn [foldl length].
    set (next := bucket_step arg closed ce unb l_cmp r_cmp (stmt, id) (j, (lower, upper))).
    assert (Hnext : cb_results next.1 = cb_results stmt ++ [py_int id] /\
                    length (cb_cases next.1) = S (length (cb_cases stmt)) /\
                    next.2 = (id + 1)%Z).
    { unfold next, bucket_step.
      destruct (ce && _);
        (split; [reflexivity|split; [cbn; rewrite length_app; cbn; lia|reflexivity]]). }
    destruct next as [stmt' id']. cbn [fst snd] in Hnext.
    destruct Hnext as (Hr & Hc & ->).
    destruct (IH stmt' (id + 1)%Z) as (Hr' & Hc' & Hid'). cbn zeta in Hr', Hc', Hid'.
    rewrite Hr', Hc', Hid', Hr, Hc. split; [|split; lia].
    rewrite <-app_assoc. f_equal. cbn [seq fmap list_fmap app].
    rewrite Z.add_0_r. f_equal. rewrite <-seq_shift, <-list_fmap_compose.
    apply list_fmap_ext. intros _ i _. cbn. f_equal. lia.
Qed.

Lemma bucket_pairs_length first rest :
  length (enumerate (zip (first :: rest) (drop 1 (first :: rest)))) = length rest.
Proof.
  unfold enumerate. rewrite length_imap, length_zip.
  change (drop 1 (first :: rest)) with rest. cbn [length]. lia.
Qed.
End bucket_counting.

Section bucket_numbering.
Implicit Types (arg first : Node) (rest : list Node).

Lemma bucket_ids_app (a b : nat) :
  bucket_ids (a + b) =
    bucket_ids a ++ ((fun i => py_int (Z.of_nat a + Z.of_nat i)) <$> seq 0 b).
Proof.
  unfold bucket_ids. rewrite seq_app, fmap_app. f_equal.
  rewrite (Nat.add_comm 0 a), <-(fmap_add_seq a 0 b), <-list_fmap_compose.
  apply list_fmap_ext. intros _ i _. cbn. do 2 f_equal. lia.
Qed.

(** With at least one edge [_bucket] returns a CASE with one branch for
    the under range (if asked for), one per pair of neighbouring edges and
    one for the over range (if asked for), whose results count up from 0. *)
Lemma bucket_result_numbered arg first rest closed ce iu io nm :
  exists r cases,
    _bucket (mkNode (Bucket arg (first :: rest) closed ce iu io) nm) = Ok r /\
    node_op r = SearchedCase cases (bucket_ids (flag iu + length rest + flag io)) None /\
    length cases = flag iu + length rest + flag io.
Proof.
  unfold _bucket. cbn [node_op].
  destruct (match closed with
            | closed_left => (LessEqual, Less)
            | closed_right => (Less, LessEqual)
            end) as [l_cmp r_cmp].
  set (unb := (Z.of_nat (length (first :: rest)) - 1)%Z).
  set (start := if iu then _ else _).
  assert (Hstart : exists stmt0,
            start = Ok (stmt0, Z.of_nat (flag iu)) /\
            cb_base stmt0 = None /\ cb_default stmt0 = None /\
            length (cb_cases stmt0) = flag iu /\
            cb_results stmt0 = bucket_ids (flag iu)).
  { unfold start. destruct iu; cbn [lookup list_lookup]; by eexists. }
  destruct Hstart as (stmt0 & -> & Hb0 & Hd0 & Hc0 & Hr0).
  cbn [mbind result_bind].
  destruct (bucket_loop_appends arg closed ce unb l_cmp r_cmp
              (enumerate (zip (first :: rest) (drop 1 (first :: rest)))) stmt0
              (Z.of_nat (flag iu)))
    as (cs & rs & _ & _ & Hb1 & Hd1).
  destruct (bucket_loop_ids arg closed ce unb l_cmp r_cmp
              (enumerate (zip (first :: rest) (drop 1 (first :: rest)))) stmt0
              (Z.of_nat (flag iu)))
    as (Hr1 & Hc1 & Hid1).
  cbn zeta in Hb1, Hd1, Hr1, Hc1, Hid1.
  rewrite bucket_pairs_length in Hr1, Hc1, Hid1.
  destruct (foldl _ (stmt0, Z.of_nat (flag iu)) _) as [stmt1 id1]. cbn [fst snd] in *.
  subst id1.
  destruct (last (first :: rest)) as [final|] eqn:Hlast;
    [|by apply last_None in Hlast].
  set (over := if io then _ else _).
  assert (Hover : exists stmt2 id2,
            over = Ok (stmt2, id2) /\
            cb_base stmt2 = None /\ cb_default stmt2 = None /\
            length (cb_cases stmt2) = length (cb_cases stmt1) + flag io /\
            cb_results stmt2 =
              cb_results stmt1 ++
              ((fun i => py_int (Z.of_nat (flag iu + length rest) + Z.of_nat i))
                 <$> seq 0 (flag io))).
  { unfold over. destruct io.
    - eexists _, _. split; [reflexivity|].
      cbn [when cb_base cb_default cb_cases cb_results flag seq fmap list_fmap].
      rewrite Hb1, Hd1, length_app. repeat split; try done.
      do 3 f_equal; lia.
    - eexists _, _. split; [reflexivity|]. cbn [flag seq fmap list_fmap].
      rewrite Hb1, Hd1, app_nil_r. repeat split; try done; lia. }
  destruct Hover as (stmt2 & id2 & -> & Hb2 & Hd2 & Hc2 & Hr2).
  cbn [mbind result_bind].
  eexists _, (cb_cases stmt2). split; [reflexivity|].
  unfold case_end. rewrite Hb2, Hd2. split.
  - rewrite Hr2, Hr1, Hr0, !bucket_ids_app.
    unfold has_name, get_name. destruct (node_name arg); reflexivity.
  - lia.
Qed.
End bucket_numbering.

(** X15: without any edge, [_bucket] yields the CASE with no branch (null
    for every value), named after the argument, when neither catch-all
    branch is asked for, and fails with [IndexError] when one is. *)
Theorem bucket_without_edges (arg : Node) (closed : Closed)
    (close_extreme include_under include_over : bool) (nm : option string) :
  _bucket (mkNode (Bucket arg [] closed close_extreme include_under include_over) nm) =
    if include_under || include_over then Raise IndexError
    else Ok (mkNode (SearchedCase [] [] None) (node_name arg)).
Proof.
  unfold _bucket. cbn [node_op].
  destruct closed, include_under, include_over; try reflexivity;
    cbn; unfold has_name, get_name, with_name, case_end;
    destruct arg as [o [a|]]; reflexivity.
Qed.

(** X16: with at least one edge, [_bucket] succeeds and the CASE it returns
    has one branch for the under range if [include_under], one for each
    pair of neighbouring edges, and one for the over range if
    [include_over]; the results of the branches are the literals 0, 1, 2,
    ... in that order, and there is no default. *)
Theorem bucket_branches_numbered (arg first : Node) (rest : list Node) (closed : Closed)
    (close_extreme include_under include_over : bool) (nm : option string) :
  let k := flag include_under + length rest + flag include_over in
  exists r cases,
    _bucket (mkNode (Bucket arg (first :: rest) closed close_extreme
                       include_under include_over) nm) = Ok r /\
    node_op r = SearchedCase cases ((fun i => py_int (Z.of_nat i)) <$> seq 0 k) None /\
    length cases = k.
Proof. apply bucket_result_numbered. Qed.

(** ** The category-label rewrite *)

Section category_label_exact.
Implicit Types (arg : Node) (labels : list string) (stmt : CaseBuilder).

(** The loop of [_category_label] appends, for each label in order, a
    branch comparing with the label's position and resulting in the label. *)
Lemma category_loop_exact labels stmt :
  foldl (fun stmt '(i, label) => when stmt (py_int (Z.of_nat i)) (py_str label))
        stmt (enumerate labels) =
  {| cb_base := cb_base stmt;
     cb_cases := cb_cases stmt ++ bucket_ids (length labels);
     cb_results := cb_results stmt ++ (py_str <$> labels);
     cb_default := cb_default stmt |}.
Proof.
  induction labels as [|label labels IH] using rev_ind.
  - cbn. rewrite !app_nil_r. by destruct stmt.
  - unfold enumerate in *. rewrite imap_app, foldl_app, IH. cbn [imap foldl].
    unfold when. cbn [cb_base cb_cases cb_results cb_default].
    rewrite length_app, Nat.add_0_r. cbn [length].
    unfold bucket_ids. rewrite Nat.add_1_r, seq_S, !fmap_app, !app_assoc.
    reflexivity.
Qed.

Lemma category_label_exact_result arg labels (nulls : option string) (nm : option string) :
  _category_label (mkNode (CategoryLabel arg labels nulls) nm) =
    Ok (mkNode (SimpleCase arg (bucket_ids (length labels)) (py_str <$> labels)
                  (py_str <$> nulls)) nm).
Proof.
  unfold _category_label. cbn [node_op]. rewrite category_loop_exact.
  unfold has_name, get_name, with_name, case_end, expr_case, else_.
  destruct nulls, nm; reflexivity.
Qed.

(** The choice that a simple CASE over the positions of a list makes. *)
Lemma simple_select_positions (z : Z) labels (k : nat) (dflt : option Val) :
  simple_select (VInt z)
    ((fun i => Some (VInt (Z.of_nat i))) <$> seq k (length labels))
    ((fun l => Some (VStr l)) <$> labels) dflt =
  match (if bool_decide (Z.of_nat k <= z)%Z then labels !! (Z.to_nat z - k) else None) with
  | Some l => Some (VStr l)
  | None => dflt
  end.
Proof.
  revert k. induction labels as [|l labels IH]; intros k.
  - cbn. by destruct (bool_decide _).
  - cbn [length seq fmap list_fmap simple_select].
    destruct (decide (z = Z.of_nat k)) as [->|Hne].
    + rewrite bool_decide_eq_true_2 by (split; [discriminate|done]).
      rewrite bool_decide_eq_true_2 by lia.
      by replace (Z.to_nat (Z.of_nat k) - k) with 0 by lia.
    + rewrite bool_decide_eq_false_2 by (intros [_ [= ?]]; done).
      rewrite IH. destruct (decide (Z.of_nat k <= z)%Z) as [Hle|Hgt].
      * rewrite !bool_decide_eq_true_2 by lia.
        by replace (Z.to_nat z - k) with (S (Z.to_nat z - S k)) by lia.
      * by rewrite !bool_decide_eq_false_2 by lia.
Qed.
End category_label_exact.

(** X17: [_category_label] never fails, and what it returns is the simple
    CASE over the code argument with one branch per label, in order, whose
    condition is the label's position (0, 1, 2, ...) and whose result is
    the label, and whose default is the [nulls] text if one was given;
    the node keeps the display name of the CategoryLabel node. *)
Theorem category_label_branches (arg : Node) (labels : list string)
    (nulls : option string) (nm : option string) :
  _category_label (mkNode (CategoryLabel arg labels nulls) nm) =
    Ok (mkNode (SimpleCase arg
                  ((fun i => py_int (Z.of_nat i)) <$> seq 0 (length labels))
                  (py_str <$> labels) (py_str <$> nulls)) nm).
Proof. apply category_label_exact_result. Qed.

(** X18: read as SQL over a column holding the integer code [z], the
    rewritten category label is the label at position [z] when [z] is a
    position of the list of labels, and otherwise the [nulls] text, or null
    when none was given. *)
Theorem category_label_value (table : Node) (column : string) (cnm : option string)
    (labels : list string) (nulls : option string) (nm : option string) (z : Z) :
  let code := mkNode (TableColumn table column) cnm in
  exists r,
    _category_label (mkNode (CategoryLabel code labels nulls) nm) = Ok r /\
    eval (bind_int code z) r =
      Some (match (if bool_decide (0 <= z)%Z then labels !! Z.to_nat z else None) with
            | Some label => VStr label
            | None => match nulls with Some text => VStr text | None => VNull end
            end).
Proof.
  intros code. eexists. split; [apply category_label_exact_result|].
  assert (Hcode : eval (bind_int code z) code = Some (VInt z)).
  { unfold code. cbn [eval]. by rewrite bind_int_self. }
  cbn [eval]. rewrite bind_int_other by discriminate.
  rewrite Hcode.
  assert (Hcases : map (eval (bind_int code z)) (bucket_ids (length labels)) =
                   (fun i => Some (VInt (Z.of_nat i))) <$> seq 0 (length labels)).
  { unfold bucket_ids. rewrite <-list_fmap_compose.
    apply list_fmap_ext. intros _ i _. cbn. by rewrite bind_int_other by discriminate. }
  assert (Hresults : map (eval (bind_int code z)) (py_str <$> labels) =
                     (fun l => Some (VStr l)) <$> labels).
  { rewrite <-list_fmap_compose.
    apply list_fmap_ext. intros _ l _. cbn. by rewrite bind_int_other by discriminate. }
  rewrite Hcases, Hresults, simple_select_positions.
  change (Z.of_nat 0) with 0%Z. rewrite Nat.sub_0_r.
  destruct (if bool_decide (0 <= z)%Z then labels !! Z.to_nat z else None); [done|].
  destruct nulls; cbn; [|done]. by rewrite bind_int_other by discriminate.
Qed.

(** ** Joining queries *)

Section collapsing.
Implicit Types (q : string) (queries : list string).

Lemma collapse_cons q q' queries :
  collapse (q :: q' :: queries) =
    q +:+ String (Ascii.ascii_of_nat 10) (String (Ascii.ascii_of_nat 10) "")
      +:+ collapse (q' :: queries).
Proof. reflexivity. Qed.

Lemma string_append_assoc (a b c : string) : (a +:+ b) +:+ c = a +:+ b +:+ c.
Proof.
  induction a as [|ch a IH]; [done|].
  change (String ch ((a +:+ b) +:+ c) = String ch (a +:+ b +:+ c)). by f_equal.
Qed.
End collapsing.

(** X19: [collapse] of one query is that query, and the collapse of two
    non-empty sequences of queries put together is the collapse of the
    first, a blank line, and the collapse of the second. *)
Theorem collapse_app (queries1 queries2 : list string) :
  queries1 <> [] -> queries2 <> [] ->
  collapse (queries1 ++ queries2) =
    collapse queries1
      +:+ String (Ascii.ascii_of_nat 10) (String (Ascii.ascii_of_nat 10) "")
      +:+ collapse queries2
  /\ (forall q, collapse [q] = q).
Proof.
  intros H1 H2. split; [|done].
  induction queries1 as [|q [|q' queries1] IH]; [done| |].
  - destruct queries2 as [|q2 queries2]; [done|]. reflexivity.
  - change ((q :: q' :: queries1) ++ queries2) with (q :: q' :: (queries1 ++ queries2)).
    rewrite !collapse_cons.
    change (q' :: queries1 ++ queries2) with ((q' :: queries1) ++ queries2).
    rewrite IH by done. by rewrite !string_append_assoc.
Qed.

Lemma collapse_app_witness :
  collapse (["SELECT 1"] ++ ["SELECT 2"]) =
    "SELECT 1" +:+ String (Ascii.ascii_of_nat 10) (String (Ascii.ascii_of_nat 10) "")
      +:+ "SELECT 2".
Proof.
  refine (proj1 (collapse_app ["SELECT 1"] ["SELECT 2"] _ _)); discriminate.
Defined.

(** ** The value of a rewritten bucket expression *)

(** The branch that the loop of [_bucket] emits for the pair of edges at
    position [j], [unb] being the number of pairs. *)
Definition bucket_branch (arg : Node) (closed : Closed) (close_extreme : bool)
    (unb : Z) (j : nat) (lower upper : Node) : Node :=
  if close_extreme &&
     ((bool_decide (closed = closed_right) && bool_decide (j = 0)) ||
      (bool_decide (closed = closed_left) && bool_decide (Z.of_nat j = unb - 1)%Z))
  then unnamed (And (unnamed (LessEqual lower arg)) (unnamed (LessEqual arg upper)))
  else match closed with
       | closed_left => unnamed (And (unnamed (LessEqual lower arg)) (unnamed (Less arg upper)))
       | closed_right => unnamed (And (unnamed (Less lower arg)) (unnamed (LessEqual arg upper)))
       end.

(** The comparator of the over-range branch, by the closed side,
    [close_extreme] and the number of pairs of edges. *)
Definition over_comparator (closed : Closed) (close_extreme : bool)
    (intervals : nat) : Cmp :=
  match intervals with
  | 0 => match closed with closed_right => Less | closed_left => LessEqual end
  | S _ =>
      if close_extreme then Less
      else match closed with closed_left => LessEqual | closed_right => Less end
  end.

(** The position of the first [true] in a list of tests. *)
Fixpoint first_true (tests : list bool) : option nat :=
  match tests with
  | [] => None
  | true :: _ => Some 0
  | false :: rest => S <$> first_true rest
  end.

(** The test of the branch for the pair [(a, b)] at position [j], on the
    integer [x]. *)
Definition interval_test (closed : Closed) (close_extreme : bool) (unb : Z)
    (j : nat) (a b x : Z) : bool :=
  if close_extreme &&
     ((bool_decide (closed = closed_right) && bool_decide (j = 0)) ||
      (bool_decide (closed = closed_left) && bool_decide (Z.of_nat j = unb - 1)%Z))
  then (a <=? x)%Z && (x <=? b)%Z
  else match closed with
       | closed_left => (a <=? x)%Z && (x <? b)%Z
       | closed_right => (a <? x)%Z && (x <=? b)%Z
       end.

(** The position of the first interval between neighbouring edges that
    holds [x]: [[a, b)] closed on the left, [(a, b]] closed on the right. *)
Fixpoint interval_index (closed : Closed) (edges : list Z) (x : Z) : option nat :=
  match edges with
  | a :: (b :: _) as rest =>
      if match closed with
         | closed_left => (a <=? x)%Z && (x <? b)%Z
         | closed_right => (a <? x)%Z && (x <=? b)%Z
         end
      then Some 0
      else S <$> interval_index closed rest x
  | _ => None
  end.

Section bucket_exact.
Implicit Types (arg first : Node) (rest : list Node) (stmt : CaseBuilder).

Lemma bucket_step_branch arg closed ce unb stmt (id : Z) j lower upper :
  bucket_step arg closed ce unb
    (match closed with closed_left => LessEqual | closed_right => Less end)
    (match closed with closed_left => Less | closed_right => LessEqual end)
    (stmt, id) (j, (lower, upper)) =
  (when stmt (bucket_branch arg closed ce unb j lower upper) (py_int id), (id + 1)%Z).
Proof.
  unfold bucket_step, bucket_branch. destruct (ce && _), closed; reflexivity.
Qed.

(** The branches that the loop of [_bucket] appends, in order. *)
Lemma bucket_loop_cases arg closed ce unb (pairs : list (Node * Node)) stmt (id : Z) :
  cb_cases (foldl (bucket_step arg closed ce unb
                     (match closed with closed_left => LessEqual | closed_right => Less end)
                     (match closed with closed_left => Less | closed_right => LessEqual end))
                  (stmt, id) (enumerate pairs)).1 =
  cb_cases stmt ++
  imap (fun j p => bucket_branch arg closed ce unb j p.1 p.2) pairs.
Proof.
  revert stmt id. induction pairs as [|[lower upper] pairs IH] using rev_ind;
    intros stmt id.
  - cbn. by rewrite app_nil_r.
  - unfold enumerate in *. rewrite !imap_app, foldl_app. cbn [imap foldl].
    destruct (foldl _ (stmt, id) _) as [stmt' id'] eqn:Hfold.
    specialize (IH stmt id). rewrite Hfold in IH. cbn [fst] in IH.
    rewrite bucket_step_branch. cbn [fst when cb_cases].
    by rewrite IH, Nat.add_0_r, app_assoc.
Qed.
End bucket_exact.

Section bucket_exact_result.
Implicit Types (arg first : Node) (rest : list Node).

Lemma last_cons_default {A} (x : A) (l : list A) :
  last (x :: l) = Some (default x (last l)).
Proof.
  revert x. induction l as [|y l IH]; intros x; [done|].
  change (last (x :: y :: l)) with (last (y :: l)). rewrite IH.
  cbn [default]. by destruct l.
Qed.

(** The branches of the CASE that [_bucket] returns, in full. *)
Lemma bucket_result_cases arg first rest closed ce iu io nm :
  exists r results,
    _bucket (mkNode (Bucket arg (first :: rest) closed ce iu io) nm) = Ok r /\
    node_op r =
      SearchedCase
        ((if iu then [unnamed (under_comparator closed ce (length rest) arg first)]
          else []) ++
         imap (fun j p =>
                 bucket_branch arg closed ce (Z.of_nat (length (first :: rest)) - 1)
                   j p.1 p.2)
              (zip (first :: rest) rest) ++
         (if io
          then [unnamed (over_comparator closed ce (length rest)
                           (default first (last rest)) arg)]
          else []))
        results None.
Proof.
  assert (Hloop := bucket_loop_cases arg closed ce
                     (Z.of_nat (length (first :: rest)) - 1)
                     (zip (first :: rest) rest)).
  unfold _bucket. cbn [node_op].
  set (unb := (Z.of_nat (length (first :: rest)) - 1)%Z) in *.
  assert (Hunder :
    (if bool_decide (unb > 0)%Z
     then (if ce then Less
           else match closed with closed_left => Less | closed_right => LessEqual end)
     else (if bool_decide (closed = closed_right) then LessEqual else Less))
    = under_comparator closed ce (length rest)).
  { unfold unb. cbn [length].
    destruct rest as [|x rest], closed, ce; cbn [length]; try reflexivity;
      rewrite bool_decide_eq_true_2 by lia; reflexivity. }
  assert (Hover :
    (if bool_decide (unb > 0)%Z
     then (if ce then Less
           else match closed with closed_left => LessEqual | closed_right => Less end)
     else (if bool_decide (closed = closed_right) then Less else LessEqual))
    = over_comparator closed ce (length rest)).
  { unfold unb. cbn [length].
    destruct rest as [|x rest], closed, ce; cbn [length]; try reflexivity;
      rewrite bool_decide_eq_true_2 by lia; reflexivity. }
  rewrite last_cons_default. change (drop 1 (first :: rest)) with rest.
  destruct closed; cbn iota in Hloop, Hunder, Hover; cbn iota beta zeta.
  all: destruct iu; cbn [lookup list_lookup mbind result_bind].
  all: rewrite ?Hunder.
  all: match goal with
       | |- context [foldl (bucket_step ?a ?c ?e ?u ?l ?r) (?st, ?i) ?its] =>
           specialize (Hloop st i);
           destruct (bucket_loop_appends a c e u l r its st i)
             as (cs & rs & _ & _ & Hb1 & Hd1);
           cbn zeta in Hb1, Hd1;
           destruct (foldl (bucket_step a c e u l r) (st, i) its) as [stmt1 id1]
       end; cbn [fst when ibis_case cb_base cb_cases cb_default] in Hloop, Hb1, Hd1.
  all: destruct io; cbn [mbind result_bind]; rewrite ?Hover.
  all: eexists _, _; split; [reflexivity|].
  all: unfold case_end, has_name, get_name, with_name;
       cbn [when cb_base cb_cases cb_results cb_default];
       rewrite Hb1, Hd1, Hloop; cbn [app]; rewrite ?app_nil_r;
       destruct (node_name arg); reflexivity.
Qed.
End bucket_exact_result.

(** The tests of the under-range and over-range branches on the integer
    [x], [e] being the first, respectively the last, edge. *)
Definition under_test (closed : Closed) (close_extreme : bool) (intervals : nat)
    (e x : Z) : bool :=
  match intervals with
  | 0 => match closed with closed_right => (x <=? e)%Z | closed_left => (x <? e)%Z end
  | S _ =>
      if close_extreme then (x <? e)%Z
      else match closed with closed_left => (x <? e)%Z | closed_right => (x <=? e)%Z end
  end.

Definition over_test (closed : Closed) (close_extreme : bool) (intervals : nat)
    (e x : Z) : bool :=
  match intervals with
  | 0 => match closed with closed_right => (e <? x)%Z | closed_left => (e <=? x)%Z end
  | S _ =>
      if close_extreme then (e <? x)%Z
      else match closed with closed_left => (e <=? x)%Z | closed_right => (e <? x)%Z end
  end.

(** The tests of all the branches of a rewritten bucket, in order. *)
Definition bucket_tests (closed : Closed) (close_extreme include_under include_over : bool)
    (e0 : Z) (es : list Z) (x : Z) : list bool :=
  (if include_under then [under_test closed close_extreme (length es) e0 x] else []) ++
  imap (fun j p => interval_test closed close_extreme (Z.of_nat (length (e0 :: es)) - 1)
                     j p.1 p.2 x)
       (zip (e0 :: es) es) ++
  (if include_over
   then [over_test closed close_extreme (length es) (default e0 (last es)) x]
   else []).

(** Evaluation of comparisons between a column and integer literals. *)
Local Ltac eval_nodes :=
  repeat first
    [ rewrite bind_int_self
    | rewrite bind_int_other by discriminate
    | progress cbn [eval unnamed py_int val_compare val_and val_of_scalar] ].

Section bucket_evaluation.
Variable table : Node.
Variable column : string.
Variable cnm : option string.
Variable x : Z.

Local Abbreviation v := (mkNode (TableColumn table column) cnm).
Local Abbreviation env := (bind_int (mkNode (TableColumn table column) cnm) x).

Lemma eval_column : eval env v = Some (VInt x).
Proof. cbn [eval]. by rewrite bind_int_self. Qed.

Lemma eval_py_int (z : Z) : eval env (py_int z) = Some (VInt z).
Proof. cbn [eval py_int unnamed]. by rewrite bind_int_other by discriminate. Qed.

Lemma eval_under (closed : Closed) (ce : bool) (n : nat) (e : Z) :
  eval env (unnamed (under_comparator closed ce n v (py_int e))) =
    Some (VBool (under_test closed ce n e x)).
Proof.
  destruct n, closed, ce; cbn [under_comparator under_test]; eval_nodes; reflexivity.
Qed.

Lemma eval_over (closed : Closed) (ce : bool) (n : nat) (e : Z) :
  eval env (unnamed (over_comparator closed ce n (py_int e) v)) =
    Some (VBool (over_test closed ce n e x)).
Proof.
  destruct n, closed, ce; cbn [over_comparator over_test]; eval_nodes; reflexivity.
Qed.

Lemma eval_branch (closed : Closed) (ce : bool) (unb : Z) (j : nat) (a b : Z) :
  eval env (bucket_branch v closed ce unb j (py_int a) (py_int b)) =
    Some (VBool (interval_test closed ce unb j a b x)).
Proof.
  unfold bucket_branch, interval_test.
  destruct (ce && _), closed; eval_nodes;
    destruct (_ <=? _)%Z, (_ <=? _)%Z || destruct (_ <=? _)%Z, (_ <? _)%Z
    || destruct (_ <? _)%Z, (_ <=? _)%Z; reflexivity.
Qed.

Lemma eval_branches (closed : Closed) (ce : bool) (unb : Z) (l1 l2 : list Z) (k : nat) :
  map (eval env)
      (imap (fun j p => bucket_branch v closed ce unb (k + j) p.1 p.2)
            (zip (py_int <$> l1) (py_int <$> l2))) =
  (fun b => Some (VBool b)) <$>
    imap (fun j p => interval_test closed ce unb (k + j) p.1 p.2 x) (zip l1 l2).
Proof.
  revert l2 k. induction l1 as [|a l1 IH]; intros [|b l2] k; try reflexivity.
  cbn [fmap list_fmap zip zip_with]. rewrite !imap_cons.
  cbn [map fmap list_fmap fst snd]. rewrite eval_branch. f_equal.
  specialize (IH l2 (S k)). cbn [fmap list_fmap zip zip_with] in IH.
  erewrite (imap_ext _ (fun j p => bucket_branch v closed ce unb (S k + j) p.1 p.2));
    [|intros; cbn; do 2 f_equal; lia].
  erewrite (imap_ext (_ ∘ S)
              (fun j p => interval_test closed ce unb (S k + j) p.1 p.2 x));
    [|intros; cbn; f_equal; lia].
  exact IH.
Qed.

Lemma eval_bucket_ids (k : nat) :
  map (eval env) (bucket_ids k) = (fun i => Some (VInt (Z.of_nat i))) <$> seq 0 k.
Proof.
  unfold bucket_ids. rewrite <-list_fmap_compose.
  apply list_fmap_ext. intros _ i _. cbn. by rewrite bind_int_other by discriminate.
Qed.
End bucket_evaluation.

Section first_true_facts.
Implicit Types (tests : list bool).

Lemma searched_select_first_true tests (start : nat) (dflt : option Val) :
  searched_select ((fun b => Some (VBool b)) <$> tests)
    ((fun i => Some (VInt (Z.of_nat i))) <$> seq start (length tests)) dflt =
  match first_true tests with
  | Some j => Some (VInt (Z.of_nat (start + j)))
  | None => dflt
  end.
Proof.
  revert start. induction tests as [|[] tests IH]; intros start; [done| |].
  - cbn. by rewrite Nat.add_0_r.
  - cbn [length seq fmap list_fmap searched_select first_true]. rewrite IH.
    destruct (first_true tests) as [j|]; cbn; [|done].
    do 3 f_equal. lia.
Qed.

Lemma first_true_Some tests j :
  first_true tests = Some j -> j < length tests /\ tests !! j = Some true.
Proof.
  revert j. induction tests as [|[] tests IH]; intros j; [done| |].
  - intros [= <-]. split; [simpl; lia|done].
  - cbn [first_true]. destruct (first_true tests) as [j'|]; [|done].
    intros [= <-]. destruct (IH j' eq_refl). split; [simpl; lia|done].
Qed.

Lemma first_true_exists tests i :
  tests !! i = Some true -> exists j, first_true tests = Some j.
Proof.
  revert i. induction tests as [|[] tests IH]; intros i; [done| |].
  - by eexists.
  - destruct i as [|i]; [done|]. cbn [lookup list_lookup first_true].
    intros [j ->]%IH. by eexists.
Qed.
End first_true_facts.

Section bucket_value.
Variable table : Node.
Variable column : string.
Variable cnm : option string.

Local Abbreviation v := (mkNode (TableColumn table column) cnm).

Lemma bucket_tests_length closed ce iu io (e0 : Z) (es : list Z) (x : Z) :
  length (bucket_tests closed ce iu io e0 es x) = flag iu + length es + flag io.
Proof.
  unfold bucket_tests. rewrite !length_app, length_imap, length_zip.
  destruct iu, io; cbn [length flag]; lia.
Qed.

(** The value of a rewritten bucket over a column and integer edges: the
    position of the first branch whose test holds, null when none does. *)
Lemma bucket_value (e0 : Z) (es : list Z) closed ce iu io (nm : option string) (x : Z) :
  exists r,
    _bucket (mkNode (Bucket (mkNode (TableColumn table column) cnm)
                       (py_int <$> e0 :: es) closed ce iu io) nm) = Ok r /\
    eval (bind_int (mkNode (TableColumn table column) cnm) x) r =
      Some (match first_true (bucket_tests closed ce iu io e0 es x) with
            | Some j => VInt (Z.of_nat j)
            | None => VNull
            end).
Proof.
  change (py_int <$> e0 :: es) with (py_int e0 :: (py_int <$> es)).
  destruct (bucket_result_cases v (py_int e0) (py_int <$> es) closed ce iu io nm)
    as (r & results & Hr & Hop).
  destruct (bucket_result_numbered v (py_int e0) (py_int <$> es) closed ce iu io nm)
    as (r' & cases' & Hr' & Hop' & _).
  rewrite Hr in Hr'. injection Hr' as <-. rewrite Hop in Hop'.
  injection Hop' as _ ->. clear cases'.
  exists r. split; [exact Hr|].
  destruct r as [o rn]. cbn [node_op] in Hop. subst o.
  cbn [eval]. rewrite bind_int_other by discriminate.
  rewrite !map_app, eval_bucket_ids.
  assert (Hunder :
    map (eval (bind_int v x))
        (if iu then [unnamed (under_comparator closed ce (length (py_int <$> es)) v
                                (py_int e0))] else []) =
    (fun b => Some (VBool b)) <$>
      (if iu then [under_test closed ce (length es) e0 x] else [])).
  { destruct iu; [|done]. cbn [map fmap list_fmap].
    by rewrite eval_under, length_fmap. }
  assert (Hover :
    map (eval (bind_int v x))
        (if io then [unnamed (over_comparator closed ce (length (py_int <$> es))
                                (default (py_int e0) (last (py_int <$> es))) v)] else []) =
    (fun b => Some (VBool b)) <$>
      (if io then [over_test closed ce (length es) (default e0 (last es)) x] else [])).
  { destruct io; [|done]. cbn [map fmap list_fmap].
    rewrite fmap_last, length_fmap.
    replace (default (py_int e0) (py_int <$> last es))
      with (py_int (default e0 (last es))) by (by destruct (last es)).
    by rewrite eval_over. }
  assert (Hloop :
    map (eval (bind_int v x))
        (imap (fun j p =>
                 bucket_branch v closed ce
                   (Z.of_nat (length (py_int e0 :: (py_int <$> es))) - 1) j p.1 p.2)
              (zip (py_int e0 :: (py_int <$> es)) (py_int <$> es))) =
    (fun b => Some (VBool b)) <$>
      imap (fun j p => interval_test closed ce (Z.of_nat (length (e0 :: es)) - 1)
                         j p.1 p.2 x)
           (zip (e0 :: es) es)).
  { cbn [length]. rewrite length_fmap.
    exact (eval_branches table column cnm x closed ce _ (e0 :: es) es 0). }
  rewrite Hunder, Hloop, Hover, <-!fmap_app. fold (bucket_tests closed ce iu io e0 es x).
  rewrite length_fmap, <-(bucket_tests_length closed ce iu io e0 es x).
  rewrite searched_select_first_true.
  by destruct (first_true _).
Qed.
End bucket_value.

(** The lower and the upper half of the test of a branch of the loop. *)
Definition lower_test (closed : Closed) (close_extreme : bool) (j : nat) (a x : Z) : bool :=
  if close_extreme && bool_decide (closed = closed_right) && bool_decide (j = 0)
  then (a <=? x)%Z
  else match closed with closed_left => (a <=? x)%Z | closed_right => (a <? x)%Z end.

Definition upper_test (closed : Closed) (close_extreme : bool) (unb : Z) (j : nat)
    (x b : Z) : bool :=
  if close_extreme && bool_decide (closed = closed_left) &&
     bool_decide (Z.of_nat j = unb - 1)%Z
  then (x <=? b)%Z
  else match closed with closed_left => (x <? b)%Z | closed_right => (x <=? b)%Z end.

Section bucket_coverage.
Implicit Types (closed : Closed) (ce : bool) (es : list Z).

Lemma interval_test_split closed ce (unb : Z) (j : nat) (a b x : Z) :
  interval_test closed ce unb j a b x =
    lower_test closed ce j a x && upper_test closed ce unb j x b.
Proof.
  unfold interval_test, lower_test, upper_test.
  destruct closed, ce, (bool_decide (j = 0)), (bool_decide (Z.of_nat j = unb - 1)%Z);
    reflexivity.
Qed.

(** Between a first edge that is below [x] and a last edge that is above
    it, some pair of neighbouring edges holds [x]. *)
Lemma interval_found closed ce (unb : Z) (x : Z) es (e0 : Z) (k : nat) :
  es <> [] -> unb = Z.of_nat (k + length es) ->
  lower_test closed ce k e0 x = true ->
  upper_test closed ce unb (k + length es - 1) x (default e0 (last es)) = true ->
  exists i,
    imap (fun j p => interval_test closed ce unb (k + j) p.1 p.2 x) (zip (e0 :: es) es)
      !! i = Some true.
Proof.
  revert e0 k. induction es as [|e1 es IH]; intros e0 k Hne Hunb Hlo Hhi; [done|].
  change (zip (e0 :: e1 :: es) (e1 :: es)) with ((e0, e1) :: zip (e1 :: es) es).
  rewrite imap_cons. cbn [fst snd]. rewrite Nat.add_0_r, interval_test_split, Hlo.
  destruct es as [|e2 es'].
  - exists 0. change (default e0 (last [e1])) with e1 in Hhi.
    cbn [lookup list_lookup length] in *.
    replace (k + 1 - 1) with k in Hhi by lia. by rewrite Hhi.
  - destruct (upper_test closed ce unb k x e1) eqn:Hup; [by exists 0|].
    destruct (IH e1 (S k)) as [i Hi].
    + done.
    + cbn [length] in *. lia.
    + unfold upper_test in Hup. unfold lower_test.
      rewrite (bool_decide_eq_false_2 (Z.of_nat k = unb - 1)%Z) in Hup
        by (cbn [length] in Hunb; lia).
      rewrite (bool_decide_eq_false_2 (S k = 0)) by lia.
      rewrite !andb_false_r in *.
      destruct closed.
      * apply Z.ltb_ge in Hup. by apply Z.leb_le.
      * apply Z.leb_gt in Hup. by apply Z.ltb_lt.
    + replace (S k + length (e2 :: es') - 1) with (k + length (e1 :: e2 :: es') - 1)
        by (cbn [length]; lia).
      change (last (e1 :: e2 :: es')) with (last (e2 :: es')) in Hhi.
      rewrite last_cons_default in Hhi |- *. exact Hhi.
    + exists (S i). cbn [lookup list_lookup].
      erewrite imap_ext; [exact Hi|].
      intros j p _. cbn. f_equal. lia.
Qed.

(** With both catch-all branches, some branch holds every integer. *)
Lemma bucket_tests_cover closed ce (e0 : Z) es (x : Z) :
  exists i, bucket_tests closed ce true true e0 es x !! i = Some true.
Proof.
  unfold bucket_tests.
  destruct (under_test closed ce (length es) e0 x) eqn:Hunder; [by exists 0|].
  destruct (over_test closed ce (length es) (default e0 (last es)) x) eqn:Hover.
  { exists (S (length (zip (e0 :: es) es))). cbn [app lookup list_lookup].
    apply list_lookup_middle. by rewrite length_imap. }
  destruct es as [|e1 es].
  { exfalso. cbn [length under_test over_test last default] in *.
    destruct closed.
    - apply Z.ltb_ge in Hunder. apply Z.leb_gt in Hover. lia.
    - apply Z.leb_gt in Hunder. apply Z.ltb_ge in Hover. lia. }
  destruct (interval_found closed ce (Z.of_nat (length (e0 :: e1 :: es)) - 1) x
              (e1 :: es) e0 0) as [i Hi].
  - done.
  - cbn [length]. lia.
  - unfold lower_test. cbn [length under_test] in Hunder.
    destruct closed, ce; cbn;
      first [ apply Z.ltb_ge in Hunder | apply Z.leb_gt in Hunder ];
      first [ by apply Z.leb_le | by apply Z.ltb_lt ].
  - unfold upper_test. cbn [length over_test] in Hover.
    rewrite (bool_decide_eq_true_2 (Z.of_nat (0 + S (length es) - 1) =
                                    Z.of_nat (S (S (length es))) - 1 - 1)%Z) by lia.
    destruct closed, ce; cbn;
      first [ apply Z.ltb_ge in Hover | apply Z.leb_gt in Hover ];
      first [ by apply Z.leb_le | by apply Z.ltb_lt ].
  - exists (S i). exact (lookup_app_l_Some _ [false] _ _ Hi).
Qed.

(** Without catch-all branch and without closed extreme, the first branch
    that holds is the first interval that holds [x]. *)
Lemma bucket_tests_plain closed (e0 : Z) es (x : Z) :
  first_true (bucket_tests closed false false false e0 es x) =
    interval_index closed (e0 :: es) x.
Proof.
  unfold bucket_tests. cbn [app]. rewrite app_nil_r.
  generalize (Z.of_nat (length (e0 :: es)) - 1)%Z. intros unb.
  revert e0. induction es as [|e1 es IH]; intros e0; [done|].
  change (zip (e0 :: e1 :: es) (e1 :: es)) with ((e0, e1) :: zip (e1 :: es) es).
  rewrite imap_cons. cbn [fst snd first_true interval_index].
  unfold interval_test at 1. cbn [andb].
  specialize (IH e1).
  erewrite (imap_ext _ (fun j p => interval_test closed false unb j p.1 p.2 x))
    by (intros; reflexivity).
  destruct (match closed with
            | closed_left => (e0 <=? x)%Z && (x <? e1)%Z
            | closed_right => (e0 <? x)%Z && (x <=? e1)%Z
            end); [done|].
  by rewrite IH.
Qed.
End bucket_coverage.

Section interval_index_facts.
Implicit Types (closed : Closed) (edges : list Z).

(** The test of the interval between two edges. *)
Definition in_interval (closed : Closed) (a b x : Z) : bool :=
  match closed with
  | closed_left => (a <=? x)%Z && (x <? b)%Z
  | closed_right => (a <? x)%Z && (x <=? b)%Z
  end.

Lemma interval_index_cons closed (a b : Z) edges (x : Z) :
  interval_index closed (a :: b :: edges) x =
    if in_interval closed a b x then Some 0
    else S <$> interval_index closed (b :: edges) x.
Proof. reflexivity. Qed.

Lemma interval_index_Some closed edges (x : Z) (j : nat) :
  interval_index closed edges x = Some j ->
  exists a b, edges !! j = Some a /\ edges !! S j = Some b /\ in_interval closed a b x = true.
Proof.
  revert j. induction edges as [|a edges IH]; intros j; [done|].
  destruct edges as [|b edges]; [done|].
  rewrite interval_index_cons.
  destruct (in_interval closed a b x) eqn:Hin.
  - intros [= <-]. by exists a, b.
  - destruct (interval_index closed (b :: edges) x) as [j'|];
      cbn [fmap option_fmap option_map]; [|done].
    intros [= <-]. destruct (IH j' eq_refl) as (a' & b' & H1 & H2 & H3).
    by exists a', b'.
Qed.

Lemma interval_index_None closed edges (x : Z) (j : nat) (a b : Z) :
  interval_index closed edges x = None ->
  edges !! j = Some a -> edges !! S j = Some b -> in_interval closed a b x = false.
Proof.
  revert j. induction edges as [|a' edges IH]; intros j; [done|].
  destruct edges as [|b' edges].
  - destruct j; done.
  - rewrite interval_index_cons.
    destruct (in_interval closed a' b' x) eqn:Hin; [done|].
    destruct (interval_index closed (b' :: edges) x) eqn:Hidx;
      cbn [fmap option_fmap option_map]; [done|].
    intros _. destruct j as [|j].
    + intros [= <-] [= <-]. done.
    + cbn [lookup list_lookup]. by apply IH.
Qed.
End interval_index_facts.

(** X20: over a column and integer edges, with both catch-all branches,
    the rewritten bucket gives every integer value a bucket index below the
    number of branches: it is never null, whichever the closed side, with
    or without [close_extreme], and in whatever order the edges come. *)
Theorem bucket_catch_alls_cover (table : Node) (column : string) (cnm : option string)
    (e0 : Z) (es : list Z) (closed : Closed) (close_extreme : bool)
    (nm : option string) (x : Z) :
  let v := mkNode (TableColumn table column) cnm in
  exists r j,
    _bucket (mkNode (Bucket v (py_int <$> e0 :: es) closed close_extreme true true) nm)
      = Ok r /\
    eval (bind_int v x) r = Some (VInt (Z.of_nat j)) /\
    j < length es + 2.
Proof.
  intros v.
  destruct (bucket_value table column cnm e0 es closed close_extreme true true nm x)
    as (r & Hr & Hval).
  destruct (bucket_tests_cover closed close_extreme e0 es x) as [i Hi].
  destruct (first_true_exists _ i Hi) as [j Hj].
  exists r, j. split; [exact Hr|]. rewrite Hj in Hval. split; [exact Hval|].
  apply first_true_Some in Hj as [Hlt _].
  rewrite bucket_tests_length in Hlt. cbn [flag] in Hlt. lia.
Qed.

(** X21: over a column and integer edges, without catch-all branch and
    without [close_extreme], the rewritten bucket is the position of the
    first pair of neighbouring edges [(a, b)] with [a <= x < b] (closed on
    the left) or [a < x <= b] (closed on the right), and null when no pair
    holds the value. *)
Theorem bucket_value_first_interval (table : Node) (column : string)
    (cnm : option string) (e0 : Z) (es : list Z) (closed : Closed)
    (nm : option string) (x : Z) :
  let v := mkNode (TableColumn table column) cnm in
  exists r,
    _bucket (mkNode (Bucket v (py_int <$> e0 :: es) closed false false false) nm) = Ok r /\
    eval (bind_int v x) r =
      Some (match interval_index closed (e0 :: es) x with
            | Some j => VInt (Z.of_nat j)
            | None => VNull
            end) /\
    (forall j, interval_index closed (e0 :: es) x = Some j ->
       exists a b, (e0 :: es) !! j = Some a /\ es !! j = Some b /\
                   in_interval closed a b x = true) /\
    (interval_index closed (e0 :: es) x = None ->
       forall j a b, (e0 :: es) !! j = Some a -> es !! j = Some b ->
                     in_interval closed a b x = false).
Proof.
  intros v.
  destruct (bucket_value table column cnm e0 es closed false false false nm x)
    as (r & Hr & Hval).
  rewrite bucket_tests_plain in Hval.
  exists r. split; [exact Hr|]. split; [exact Hval|]. split.
  - intros j Hj. by apply interval_index_Some in Hj.
  - intros Hnone j a b Ha Hb. by apply (interval_index_None closed (e0 :: es) x j a b).
Qed.

Section bucket_exclusive.
Implicit Types (closed : Closed) (ce : bool) (es edges : list Z).

Lemma under_test_true closed ce (n : nat) (e x : Z) :
  under_test closed ce n e x = true ->
  (x <= e)%Z /\ ((x < e)%Z \/ (closed = closed_right /\ (ce = false \/ n = 0))).
Proof.
  destruct n, closed, ce; cbn [under_test];
    rewrite ?Z.ltb_lt, ?Z.leb_le; intros; (split; [lia|]);
    first [left; lia | right; split; [done|]; first [by left | by right]].
Qed.

Lemma over_test_true closed ce (n : nat) (e x : Z) :
  over_test closed ce n e x = true ->
  (e <= x)%Z /\ ((e < x)%Z \/ (closed = closed_left /\ (ce = false \/ n = 0))).
Proof.
  destruct n, closed, ce; cbn [over_test];
    rewrite ?Z.ltb_lt, ?Z.leb_le; intros; (split; [lia|]);
    first [left; lia | right; split; [done|]; first [by left | by right]].
Qed.

Lemma interval_test_true closed ce (n k : nat) (a b x : Z) :
  interval_test closed ce (Z.of_nat n) k a b x = true ->
  ((a <= x)%Z /\ ((a < x)%Z \/ closed = closed_left \/ (ce = true /\ k = 0))) /\
  ((x <= b)%Z /\ ((x < b)%Z \/ closed = closed_right \/ (ce = true /\ S k = n))).
Proof.
  unfold interval_test.
  destruct closed, ce; cbn [andb orb];
    repeat case_bool_decide; try discriminate; cbn [andb orb];
    rewrite andb_true_iff, ?Z.ltb_lt, ?Z.leb_le; intros [? ?];
    (split; (split; [lia|]));
    first [ by right; left
          | left; lia
          | right; right; split; [done|lia] ].
Qed.

Lemma sorted_lookup_le edges (i j : nat) (a b : Z) :
  Sorted Z.le edges -> i <= j ->
  edges !! i = Some a -> edges !! j = Some b -> (a <= b)%Z.
Proof.
  intros Hsorted. apply Sorted_StronglySorted in Hsorted; [|intros ???; lia].
  revert i j. induction Hsorted as [|e edges Hs IH Hall]; intros i j Hij; [done|].
  destruct i as [|i], j as [|j]; try lia.
  - intros [= <-] [= <-]. lia.
  - intros [= <-] Hb. cbn [lookup list_lookup] in Hb.
    rewrite Forall_forall in Hall. apply Hall. by eapply list_elem_of_lookup_2.
  - cbn [lookup list_lookup]. apply IH. lia.
Qed.

(** Where a test of a rewritten bucket can hold: the under-range branch,
    the branch of a pair of neighbouring edges, or the over-range branch. *)
Lemma bucket_tests_true closed ce iu io (e0 : Z) es (x : Z) (i : nat) :
  bucket_tests closed ce iu io e0 es x !! i = Some true ->
  (iu = true /\ i = 0 /\ under_test closed ce (length es) e0 x = true) \/
  (exists k a b, i = flag iu + k /\ (e0 :: es) !! k = Some a /\ es !! k = Some b /\
                 interval_test closed ce (Z.of_nat (length es)) k a b x = true) \/
  (io = true /\ i = flag iu + length es /\
   over_test closed ce (length es) (default e0 (last es)) x = true).
Proof.
  unfold bucket_tests. intros Hi.
  apply lookup_app_Some in Hi as [Hi|[Hlen Hi]].
  { left. destruct iu; [|done]. destruct i; [|done]. by injection Hi as ->. }
  assert (length (if iu then [under_test closed ce (length es) e0 x] else []) = flag iu)
    as Hflag by (by destruct iu).
  rewrite Hflag in Hlen, Hi.
  apply lookup_app_Some in Hi as [Hi|[Hlen' Hi]].
  - right; left. apply list_lookup_imap_Some in Hi as ([a b] & Hab & Htest).
    apply lookup_zip_with_Some in Hab as (a' & b' & [= <- <-] & Ha & Hb).
    exists (i - flag iu), a, b. split; [lia|]. split; [done|]. split; [done|].
    cbn [fst snd length] in Htest.
    replace (Z.of_nat (S (length es)) - 1)%Z with (Z.of_nat (length es)) in Htest by lia.
    by rewrite Htest.
  - right; right. rewrite length_imap, length_zip in Hlen', Hi. cbn [length] in Hlen', Hi.
    replace (S (length es) `min` length es) with (length es) in Hlen', Hi by lia.
    destruct io; [|done].
    destruct (i - flag iu - length es) as [|m] eqn:Hm; [|done].
    injection Hi as Hover. split; [done|]. split; [lia|done].
Qed.

(** Over sorted edges no two tests of a rewritten bucket hold together. *)
Lemma bucket_tests_exclusive closed ce iu io (e0 : Z) es (x : Z) (i j : nat) :
  Sorted Z.le (e0 :: es) ->
  bucket_tests closed ce iu io e0 es x !! i = Some true ->
  bucket_tests closed ce iu io e0 es x !! j = Some true ->
  i = j.
Proof.
  intros Hsorted Hi Hj.
  assert (Hfirst : forall k a, (e0 :: es) !! k = Some a -> (e0 <= a)%Z).
  { intros k a Ha. by apply (sorted_lookup_le (e0 :: es) 0 k e0 a); [|lia| |]. }
  assert (Hend : (e0 :: es) !! length es = Some (default e0 (last es))).
  { by rewrite <-last_cons_default, last_lookup. }
  assert (Hlast : forall k b, es !! k = Some b -> (b <= default e0 (last es))%Z).
  { intros k b Hb. pose proof (lookup_lt_Some _ _ _ Hb) as Hlt.
    by apply (sorted_lookup_le (e0 :: es) (S k) (length es) b _); [|lia| |]. }
  assert (Hends : (e0 <= default e0 (last es))%Z) by (by apply (Hfirst (length es))).
  assert (Hpair : forall k k' b a', k < k' -> es !! k = Some b ->
                    (e0 :: es) !! k' = Some a' -> (b <= a')%Z).
  { intros k k' b a' Hlt Hb Ha'.
    by apply (sorted_lookup_le (e0 :: es) (S k) k' b a'); [|lia| |]. }
  assert (Hcross : forall k k' a b a' b', k < k' ->
            (e0 :: es) !! k = Some a -> es !! k = Some b ->
            (e0 :: es) !! k' = Some a' -> es !! k' = Some b' ->
            interval_test closed ce (Z.of_nat (length es)) k a b x = true ->
            interval_test closed ce (Z.of_nat (length es)) k' a' b' x = true -> False).
  { intros k k' a b a' b' Hlt Ha Hb Ha' Hb' Ht Ht'.
    pose proof (Hpair _ _ _ _ Hlt Hb Ha').
    pose proof (lookup_lt_Some _ _ _ Hb'). clear Hfirst Hlast Hpair Hend Hends.
    apply interval_test_true in Ht, Ht'.
    destruct closed, ce; intuition (try discriminate; try lia). }
  apply bucket_tests_true in Hi, Hj.
  destruct Hi as [(_ & -> & Hu)|[(k & a & b & -> & Ha & Hb & Ht)|(_ & -> & Ho)]];
    destruct Hj as [(_ & -> & Hu')|[(k' & a' & b' & -> & Ha' & Hb' & Ht')|(_ & -> & Ho')]];
    try reflexivity.
  - exfalso. pose proof (Hfirst _ _ Ha'). pose proof (lookup_lt_Some _ _ _ Hb').
    clear Hfirst Hlast Hpair Hcross Hend.
    apply under_test_true in Hu. apply interval_test_true in Ht'.
    destruct closed, ce; intuition (try discriminate; try lia).
  - exfalso. clear Hfirst Hlast Hpair Hcross Hend.
    apply under_test_true in Hu. apply over_test_true in Ho'.
    destruct closed, ce; intuition (try discriminate; try lia).
  - exfalso. pose proof (Hfirst _ _ Ha). pose proof (lookup_lt_Some _ _ _ Hb).
    clear Hfirst Hlast Hpair Hcross Hend.
    apply under_test_true in Hu'. apply interval_test_true in Ht.
    destruct closed, ce; intuition (try discriminate; try lia).
  - destruct (Nat.lt_trichotomy k k') as [Hlt|[->|Hlt]]; [exfalso|done|exfalso].
    + exact (Hcross _ _ _ _ _ _ Hlt Ha Hb Ha' Hb' Ht Ht').
    + exact (Hcross _ _ _ _ _ _ Hlt Ha' Hb' Ha Hb Ht' Ht).
  - exfalso. pose proof (Hlast _ _ Hb). pose proof (lookup_lt_Some _ _ _ Hb).
    clear Hfirst Hlast Hpair Hcross Hend.
    apply over_test_true in Ho'. apply interval_test_true in Ht.
    destruct closed, ce; intuition (try discriminate; try lia).
  - exfalso. clear Hfirst Hlast Hpair Hcross Hend.
    apply under_test_true in Hu'. apply over_test_true in Ho.
    destruct closed, ce; intuition (try discriminate; try lia).
  - exfalso. pose proof (Hlast _ _ Hb'). pose proof (lookup_lt_Some _ _ _ Hb').
    clear Hfirst Hlast Hpair Hcross Hend.
    apply over_test_true in Ho. apply interval_test_true in Ht'.
    destruct closed, ce; intuition (try discriminate; try lia).
Qed.
End bucket_exclusive.

Section bucket_case_tests.
Variable table : Node.
Variable column : string.
Variable cnm : option string.

Local Abbreviation v := (mkNode (TableColumn table column) cnm).

(** The conditions of the branches of a rewritten bucket over a column and
    integer edges evaluate to the tests of [bucket_tests], in order. *)
Lemma bucket_cases_tests (e0 : Z) (es : list Z) closed ce iu io (nm : option string)
    (x : Z) :
  exists r cases results,
    _bucket (mkNode (Bucket v (py_int <$> e0 :: es) closed ce iu io) nm) = Ok r /\
    node_op r = SearchedCase cases results None /\
    map (eval (bind_int v x)) cases =
      (fun b => Some (VBool b)) <$> bucket_tests closed ce iu io e0 es x.
Proof.
  change (py_int <$> e0 :: es) with (py_int e0 :: (py_int <$> es)).
  destruct (bucket_result_cases v (py_int e0) (py_int <$> es) closed ce iu io nm)
    as (r & results & Hr & Hop).
  exists r. eexists. exists results. split; [exact Hr|]. split; [exact Hop|].
  rewrite !map_app. unfold bucket_tests. rewrite !fmap_app. f_equal; [|f_equal].
  - destruct iu; [|done]. cbn [map fmap list_fmap].
    by rewrite eval_under, length_fmap.
  - cbn [length]. rewrite length_fmap.
    exact (eval_branches table column cnm x closed ce _ (e0 :: es) es 0).
  - destruct io; [|done]. cbn [map fmap list_fmap].
    rewrite fmap_last, length_fmap.
    replace (default (py_int e0) (py_int <$> last es))
      with (py_int (default e0 (last es))) by (by destruct (last es)).
    by rewrite eval_over.
Qed.
End bucket_case_tests.

(** X22: over a column and integer edges in non-decreasing order, no two
    branches of the rewritten bucket hold for the same integer value,
    whatever the closed side and the flags: the intervals and the catch-all
    branches never overlap, so the bucket index does not depend on the
    order of the branches. *)
Theorem bucket_branches_exclusive (table : Node) (column : string) (cnm : option string)
    (e0 : Z) (es : list Z) (closed : Closed) (close_extreme include_under include_over : bool)
    (nm : option string) (x : Z) :
  Sorted Z.le (e0 :: es) ->
  let v := mkNode (TableColumn table column) cnm in
  exists r cases results,
    _bucket (mkNode (Bucket v (py_int <$> e0 :: es) closed close_extreme
                       include_under include_over) nm) = Ok r /\
    node_op r = SearchedCase cases results None /\
    forall i j ci cj,
      cases !! i = Some ci -> cases !! j = Some cj ->
      eval (bind_int v x) ci = Some (VBool true) ->
      eval (bind_int v x) cj = Some (VBool true) ->
      i = j.
Proof.
  intros Hsorted v.
  destruct (bucket_cases_tests table column cnm e0 es closed close_extreme
              include_under include_over nm x) as (r & cases & results & Hr & Hop & Hev).
  exists r, cases, results. split; [exact Hr|]. split; [exact Hop|].
  intros i j ci cj Hi Hj Hci Hcj.
  assert (Htest : forall k c, cases !! k = Some c ->
            eval (bind_int v x) c = Some (VBool true) ->
            bucket_tests closed close_extreme include_under include_over e0 es x !! k
              = Some true).
  { intros k c Hk Hc.
    assert (((fun b => Some (VBool b)) <$>
               bucket_tests closed close_extreme include_under include_over e0 es x) !! k
            = Some (Some (VBool true))) as Hm.
    { rewrite <-Hev.
      change (map (eval (bind_int v x)) cases) with (eval (bind_int v x) <$> cases).
      rewrite list_lookup_fmap, Hk. cbn [fmap option_fmap option_map].
      exact (f_equal Some Hc). }
    rewrite list_lookup_fmap in Hm.
    destruct (bucket_tests _ _ _ _ _ _ _ !! k) as [[]|]; cbn in Hm; congruence. }
  eapply bucket_tests_exclusive; [exact Hsorted|by eapply Htest..].
Qed.

Lemma bucket_branches_exclusive_witness :
  Sorted Z.le [0; 10; 20]%Z /\
  exists r cases results,
    _bucket (mkNode (Bucket column_v (py_int <$> [0; 10; 20]%Z) closed_right true
                       true true) None) = Ok r /\
    node_op r = SearchedCase cases results None /\
    forall i j ci cj,
      cases !! i = Some ci -> cases !! j = Some cj ->
      eval (bind_int column_v 10) ci = Some (VBool true) ->
      eval (bind_int column_v 10) cj = Some (VBool true) ->
      i = j.
Proof.
  assert (Hsorted : Sorted Z.le [0; 10; 20]%Z) by (repeat constructor; lia).
  split; [exact Hsorted|].
  exact (bucket_branches_exclusive _ _ _ 0%Z [10; 20]%Z closed_right true true true
           None 10%Z Hsorted).
Defined.
